(** * Streaming JSON to flatbuffers visitor

    A shallow embedding of [firmware/main/flatbuffers_streaming_json_visitor.h]:
    the wildcard path matcher, the SAX handlers of
    [FlatbuffersStreamingParser], the schema-reflection lookup used by the
    keyed-table rewrite, and the encode / verify / decode / sink pipeline.

    Conventions.
    - [std::string] and [stx::string_view] are [string]; [std::vector] is
      [list], [push_back] is [++ [_]] and [pop_back] is [removelast].
    - [int] is a [Z] kept in the 32-bit signed range by [int_wrap].
    - [double] is [spec_float] (IEEE 754 binary64 values).
    - [std::ostringstream ss] is the [string] it holds; [c_str] is what a
      reader of a C string sees of a [string].
    - A pointer member is a [pointer]: null, the address of an object, or
      [wild] when it addresses no object of its type, as unassigned storage
      may.  Reading through a pointer that is null or wild loses control.
    - The tokenizer, the schema compiler, the verifier and the decoders are
      external collaborators; they appear as the fields of [Collaborators]
      and every call made to them is recorded in a log. *)

From Stdlib Require Import ZArith String Ascii Bool Lia List.
From Stdlib Require Import DecimalString DecimalPos DecimalZ SpecFloat.
Import ListNotations.

Local Open Scope string_scope.
Local Open Scope Z_scope.
Local Open Scope list_scope.

(** String concatenation, as [operator<<] appends to the stream. *)
Local Infix "+++" := String.append (at level 60, right associativity).

(** ** Machine integers and text helpers *)

Definition int_min : Z := - 2 ^ 31.
Definition int_max : Z := 2 ^ 31 - 1.

(** Two's-complement reduction of a mathematical integer to [int]. *)
Definition int_wrap (z : Z) : Z := (z + 2 ^ 31) mod 2 ^ 32 - 2 ^ 31.

Definition in_int_range (z : Z) : bool := (int_min <=? z) && (z <=? int_max).

(** [operator<<] on an integer: its decimal representation. *)
Definition string_of_Z (z : Z) : string := NilZero.string_of_int (Z.to_int z).

(** The one-character string holding a double quote. *)
Definition dquote : string := String (ascii_of_nat 34) EmptyString.

Definition is_empty (s : string) : bool :=
  match s with EmptyString => true | String _ _ => false end.

(** [buf[buf.size() - 1]] of a non-empty buffer. *)
Fixpoint last_char (s : string) : option ascii :=
  match s with
  | EmptyString => None
  | String c EmptyString => Some c
  | String _ rest => last_char rest
  end.

Definition nul : ascii := ascii_of_nat 0.

(** [s.c_str()] and [buf.data()] as the callee reads them: the bytes before
    the first null byte. *)
Fixpoint c_str (s : string) : string :=
  match s with
  | EmptyString => EmptyString
  | String c rest =>
      if Ascii.eqb c nul then EmptyString else String c (c_str rest)
  end.

(** ** Pointers *)

(** The value of a pointer member: null, the address of an object, or an
    address at which no object of the type lives.  The last is what a
    pointer that was never assigned may hold. *)
Inductive pointer (A : Type) : Type :=
| nullptr
| address (a : A)
| wild.

Arguments nullptr {A}.
Arguments address {A} a.
Arguments wild {A}.

(** A pointer handed out by the reflection library: null or an object. *)
Definition of_option {A : Type} (o : option A) : pointer A :=
  match o with
  | Some a => address a
  | None => nullptr
  end.

(** ** Conversion of a [double] to [int]

    A [double] is a [spec_float]: [S754_finite s m e] is
    [(-1)^s * m * 2^e]. *)

(** The integer part of a finite value, rounding toward zero. *)
Definition integer_part (d : spec_float) : option Z :=
  match d with
  | S754_zero _ => Some 0
  | S754_finite s m e =>
      let magnitude :=
        if 0 <=? e then Z.pos m * 2 ^ e else Z.pos m / 2 ^ (- e) in
      Some (if s then - magnitude else magnitude)
  | S754_infinity _ | S754_nan => None
  end.

(** [(int)(d)].  The conversion discards the fractional part.  When the
    integer part does not fit in an [int] (or [d] is not finite) the language
    leaves the result open; [unrepresentable d] is what the platform then
    produces, reduced to an [int]. *)
Definition double_to_int (unrepresentable : spec_float -> Z)
           (d : spec_float) : Z :=
  match integer_part d with
  | Some z => if in_int_range z then z else int_wrap (unrepresentable d)
  | None => int_wrap (unrepresentable d)
  end.

(** ** Path matching *)

Definition wildcard_sym : string := "*".

Definition equality_or_wildcard (root current : string) : bool :=
  String.eqb root wildcard_sym || String.eqb root current.

(** [std::equal(first1, last1, first2, pred)]: the first range drives the
    loop.  The caller guarantees that the second range is at least as long;
    the last equation is never reached under that guard. *)
Fixpoint std_equal (pred : string -> string -> bool)
         (range1 range2 : list string) : bool :=
  match range1, range2 with
  | [], _ => true
  | r :: rs, c :: cs => pred r c && std_equal pred rs cs
  | _ :: _, [] => false
  end.

(** [v.empty()] *)
Definition empty {A : Type} (v : list A) : bool :=
  match v with [] => true | _ :: _ => false end.

Definition is_a_subpath (current_path root_path : list string) : bool :=
  empty root_path
  || ((length root_path <=? length current_path)%nat
      && std_equal equality_or_wildcard root_path current_path).

(** ** Schema reflection

    The reflection tables of [flatbuffers/reflection.h] as plain data.  A
    [Type_] refers to another table through its [index] into the schema's
    [objects] vector. *)

Module reflection.

Inductive BaseType : Type :=
| None_ | UType | Bool_ | Byte_ | UByte | Short | UShort | Int | UInt
| Long | ULong | Float | Double | String_ | Vector | Obj | Union.

Definition BaseType_eqb (a b : BaseType) : bool :=
  match a, b with
  | None_, None_ | UType, UType | Bool_, Bool_ | Byte_, Byte_
  | UByte, UByte | Short, Short | UShort, UShort | Int, Int | UInt, UInt
  | Long, Long | ULong, ULong | Float, Float | Double, Double
  | String_, String_ | Vector, Vector | Obj, Obj | Union, Union => true
  | _, _ => false
  end.

Record Type_ : Type := {
  base_type : BaseType;
  element : BaseType;
  index : Z
}.

Record Field : Type := {
  name : string;
  type : Type_
}.

(** [fields] is [None] when the accessor returns a null vector. *)
Record Object : Type := {
  object_name : string;
  fields : option (list Field)
}.

Record Schema : Type := {
  objects : list Object;
  root_table : option Object
}.

(** Modelled from the spec: [fields->LookupByKey(key)] of the reflection
    library, which is not part of this source tree.  It is the lookup of a
    field by name, [None] standing for the null pointer; field names are
    unique within a table. *)
Definition LookupByKey (key : string) (fs : list Field) : option Field :=
  find (fun f => String.eqb (name f) key) fs.

(** Modelled from the spec: [schema->objects()->Get(i)] of the reflection
    library, which is not part of this source tree.  [None] stands for a
    descriptor that cannot be resolved (a null result, or an index outside
    the vector). *)
Definition Get (objs : list Object) (i : Z) : option Object :=
  if 0 <=? i then nth_error objs (Z.to_nat i) else None.

End reflection.

(** ** The event source

    Modelled from the spec: the tokenizer ([picojson.h]) is an external
    collaborator and not part of this source tree.  A document is the tree of
    events it delivers while reading the byte stream: one event per primitive
    value, enter and exit events around arrays and objects, one item event
    per array element and per object key.  A point where the tokenizer meets
    a syntax error is a node of its own ([JSyntaxError], [ItemsError],
    [MembersError], and [JBadString] for an error inside a string literal):
    the tokenizer stops there and delivers no further event. *)

Inductive json : Type :=
| JNull
| JBool (b : bool)
| JInt64 (i : Z)
| JNumber (d : spec_float)
| JString (s : string)
| JBadString (s : string)
| JSyntaxError
| JArray (a : items)
| JObject (o : members)
with items : Type :=
| ItemsEnd
| ItemsError
| ItemsCons (v : json) (rest : items)
with members : Type :=
| MembersEnd
| MembersError
| MembersCons (key : string) (v : json) (rest : members).

Scheme json_mut := Induction for json Sort Prop
  with items_mut := Induction for items Sort Prop
  with members_mut := Induction for members Sort Prop.

Combined Scheme json_items_members_ind from json_mut, items_mut, members_mut.

(** A document without syntax errors. *)
Fixpoint well_formed (v : json) : bool :=
  match v with
  | JBadString _ | JSyntaxError => false
  | JArray a => well_formed_items a
  | JObject o => well_formed_members o
  | _ => true
  end
with well_formed_items (a : items) : bool :=
  match a with
  | ItemsEnd => true
  | ItemsError => false
  | ItemsCons v rest => well_formed v && well_formed_items rest
  end
with well_formed_members (o : members) : bool :=
  match o with
  | MembersEnd => true
  | MembersError => false
  | MembersCons _ v rest => well_formed v && well_formed_members rest
  end.

(** The deepest nesting of objects, and of arrays, in a document. *)
Fixpoint object_nesting (v : json) : Z :=
  match v with
  | JArray a => object_nesting_items a
  | JObject o => 1 + object_nesting_members o
  | _ => 0
  end
with object_nesting_items (a : items) : Z :=
  match a with
  | ItemsCons v rest => Z.max (object_nesting v) (object_nesting_items rest)
  | _ => 0
  end
with object_nesting_members (o : members) : Z :=
  match o with
  | MembersCons _ v rest =>
      Z.max (object_nesting v) (object_nesting_members rest)
  | _ => 0
  end.

Fixpoint array_nesting (v : json) : Z :=
  match v with
  | JArray a => 1 + array_nesting_items a
  | JObject o => array_nesting_members o
  | _ => 0
  end
with array_nesting_items (a : items) : Z :=
  match a with
  | ItemsCons v rest => Z.max (array_nesting v) (array_nesting_items rest)
  | _ => 0
  end
with array_nesting_members (o : members) : Z :=
  match o with
  | MembersCons _ v rest =>
      Z.max (array_nesting v) (array_nesting_members rest)
  | _ => 0
  end.

(** ** The engine *)

(** [flatbuffers::IDLOptions], the two options the constructor sets. *)
Record IDLOptions : Type := {
  strict_json : bool;
  skip_unexpected_fields_in_json : bool
}.

Section Engine.

(** The template parameters, and the binary buffer built by the encoder. *)
Context {MessageT ErrorT Buffer : Type}.

(** Calls made to the external collaborators, in the order they happen.
    The log stands for their state: each collaborator answers from the
    calls made so far. *)
Inductive call : Type :=
| CallParseSchema (text : string)
| CallVerifySchemaBuffer (buf : string)
| CallSetRootType (is_error : bool)
| CallParseJson (text : string)
| CallVerifyBuffer (is_error : bool) (buf : Buffer)
| CallMessageSink (m : MessageT)
| CallErrorSink (e : ErrorT)
| CallEmptyFunction.

Record FlatbuffersStreamingParser : Type := {
  root_path : list string;
  callback : option (list call -> MessageT -> bool);
  error_path : list string;
  errback : option (list call -> ErrorT -> bool);
  parser_opts : IDLOptions;
  flatbuffers_parser_ready : bool;
  is_parse_error : bool;
  is_error_path : bool;
  object_depth : Z;
  array_depth : Z;
  object_idx : Z;
  array_idx : Z;
  current_path : list string;
  current_key : string;
  ss : string;
  emit_json : bool;
  needs_close_array : bool;
  needs_close_object : bool;
  schema : pointer reflection.Schema;
  reflection_table : pointer reflection.Object
}.

Local Abbreviation Parser := FlatbuffersStreamingParser.

(** Assignment to one member. *)
Definition with_root_path (v : list string) (p : Parser) : Parser :=
  match p with
  | Build_FlatbuffersStreamingParser
      _ f1 f2 f3 f4 f5 f6 f7 f8 f9 f10 f11 f12 f13 f14 f15 f16 f17 f18 f19 =>
    Build_FlatbuffersStreamingParser
      v f1 f2 f3 f4 f5 f6 f7 f8 f9 f10 f11 f12 f13 f14 f15 f16 f17 f18 f19
  end.

Definition with_callback (v : option (list call -> MessageT -> bool)) (p : Parser) : Parser :=
  match p with
  | Build_FlatbuffersStreamingParser
      f0 _ f2 f3 f4 f5 f6 f7 f8 f9 f10 f11 f12 f13 f14 f15 f16 f17 f18 f19 =>
    Build_FlatbuffersStreamingParser
      f0 v f2 f3 f4 f5 f6 f7 f8 f9 f10 f11 f12 f13 f14 f15 f16 f17 f18 f19
  end.

Definition with_error_path (v : list string) (p : Parser) : Parser :=
  match p with
  | Build_FlatbuffersStreamingParser
      f0 f1 _ f3 f4 f5 f6 f7 f8 f9 f10 f11 f12 f13 f14 f15 f16 f17 f18 f19 =>
    Build_FlatbuffersStreamingParser
      f0 f1 v f3 f4 f5 f6 f7 f8 f9 f10 f11 f12 f13 f14 f15 f16 f17 f18 f19
  end.

Definition with_errback (v : option (list call -> ErrorT -> bool)) (p : Parser) : Parser :=
  match p with
  | Build_FlatbuffersStreamingParser
      f0 f1 f2 _ f4 f5 f6 f7 f8 f9 f10 f11 f12 f13 f14 f15 f16 f17 f18 f19 =>
    Build_FlatbuffersStreamingParser
      f0 f1 f2 v f4 f5 f6 f7 f8 f9 f10 f11 f12 f13 f14 f15 f16 f17 f18 f19
  end.

Definition with_parser_opts (v : IDLOptions) (p : Parser) : Parser :=
  match p with
  | Build_FlatbuffersStreamingParser
      f0 f1 f2 f3 _ f5 f6 f7 f8 f9 f10 f11 f12 f13 f14 f15 f16 f17 f18 f19 =>
    Build_FlatbuffersStreamingParser
      f0 f1 f2 f3 v f5 f6 f7 f8 f9 f10 f11 f12 f13 f14 f15 f16 f17 f18 f19
  end.

Definition with_flatbuffers_parser_ready (v : bool) (p : Parser) : Parser :=
  match p with
  | Build_FlatbuffersStreamingParser
      f0 f1 f2 f3 f4 _ f6 f7 f8 f9 f10 f11 f12 f13 f14 f15 f16 f17 f18 f19 =>
    Build_FlatbuffersStreamingParser
      f0 f1 f2 f3 f4 v f6 f7 f8 f9 f10 f11 f12 f13 f14 f15 f16 f17 f18 f19
  end.

Definition with_is_parse_error (v : bool) (p : Parser) : Parser :=
  match p with
  | Build_FlatbuffersStreamingParser
      f0 f1 f2 f3 f4 f5 _ f7 f8 f9 f10 f11 f12 f13 f14 f15 f16 f17 f18 f19 =>
    Build_FlatbuffersStreamingParser
      f0 f1 f2 f3 f4 f5 v f7 f8 f9 f10 f11 f12 f13 f14 f15 f16 f17 f18 f19
  end.

Definition with_is_error_path (v : bool) (p : Parser) : Parser :=
  match p with
  | Build_FlatbuffersStreamingParser
      f0 f1 f2 f3 f4 f5 f6 _ f8 f9 f10 f11 f12 f13 f14 f15 f16 f17 f18 f19 =>
    Build_FlatbuffersStreamingParser
      f0 f1 f2 f3 f4 f5 f6 v f8 f9 f10 f11 f12 f13 f14 f15 f16 f17 f18 f19
  end.

Definition with_object_depth (v : Z) (p : Parser) : Parser :=
  match p with
  | Build_FlatbuffersStreamingParser
      f0 f1 f2 f3 f4 f5 f6 f7 _ f9 f10 f11 f12 f13 f14 f15 f16 f17 f18 f19 =>
    Build_FlatbuffersStreamingParser
      f0 f1 f2 f3 f4 f5 f6 f7 v f9 f10 f11 f12 f13 f14 f15 f16 f17 f18 f19
  end.

Definition with_array_depth (v : Z) (p : Parser) : Parser :=
  match p with
  | Build_FlatbuffersStreamingParser
      f0 f1 f2 f3 f4 f5 f6 f7 f8 _ f10 f11 f12 f13 f14 f15 f16 f17 f18 f19 =>
    Build_FlatbuffersStreamingParser
      f0 f1 f2 f3 f4 f5 f6 f7 f8 v f10 f11 f12 f13 f14 f15 f16 f17 f18 f19
  end.

Definition with_object_idx (v : Z) (p : Parser) : Parser :=
  match p with
  | Build_FlatbuffersStreamingParser
      f0 f1 f2 f3 f4 f5 f6 f7 f8 f9 _ f11 f12 f13 f14 f15 f16 f17 f18 f19 =>
    Build_FlatbuffersStreamingParser
      f0 f1 f2 f3 f4 f5 f6 f7 f8 f9 v f11 f12 f13 f14 f15 f16 f17 f18 f19
  end.

Definition with_array_idx (v : Z) (p : Parser) : Parser :=
  match p with
  | Build_FlatbuffersStreamingParser
      f0 f1 f2 f3 f4 f5 f6 f7 f8 f9 f10 _ f12 f13 f14 f15 f16 f17 f18 f19 =>
    Build_FlatbuffersStreamingParser
      f0 f1 f2 f3 f4 f5 f6 f7 f8 f9 f10 v f12 f13 f14 f15 f16 f17 f18 f19
  end.

Definition with_current_path (v : list string) (p : Parser) : Parser :=
  match p with
  | Build_FlatbuffersStreamingParser
      f0 f1 f2 f3 f4 f5 f6 f7 f8 f9 f10 f11 _ f13 f14 f15 f16 f17 f18 f19 =>
    Build_FlatbuffersStreamingParser
      f0 f1 f2 f3 f4 f5 f6 f7 f8 f9 f10 f11 v f13 f14 f15 f16 f17 f18 f19
  end.

Definition with_current_key (v : string) (p : Parser) : Parser :=
  match p with
  | Build_FlatbuffersStreamingParser
      f0 f1 f2 f3 f4 f5 f6 f7 f8 f9 f10 f11 f12 _ f14 f15 f16 f17 f18 f19 =>
    Build_FlatbuffersStreamingParser
      f0 f1 f2 f3 f4 f5 f6 f7 f8 f9 f10 f11 f12 v f14 f15 f16 f17 f18 f19
  end.

Definition with_ss (v : string) (p : Parser) : Parser :=
  match p with
  | Build_FlatbuffersStreamingParser
      f0 f1 f2 f3 f4 f5 f6 f7 f8 f9 f10 f11 f12 f13 _ f15 f16 f17 f18 f19 =>
    Build_FlatbuffersStreamingParser
      f0 f1 f2 f3 f4 f5 f6 f7 f8 f9 f10 f11 f12 f13 v f15 f16 f17 f18 f19
  end.

Definition with_emit_json (v : bool) (p : Parser) : Parser :=
  match p with
  | Build_FlatbuffersStreamingParser
      f0 f1 f2 f3 f4 f5 f6 f7 f8 f9 f10 f11 f12 f13 f14 _ f16 f17 f18 f19 =>
    Build_FlatbuffersStreamingParser
      f0 f1 f2 f3 f4 f5 f6 f7 f8 f9 f10 f11 f12 f13 f14 v f16 f17 f18 f19
  end.

Definition with_needs_close_array (v : bool) (p : Parser) : Parser :=
  match p with
  | Build_FlatbuffersStreamingParser
      f0 f1 f2 f3 f4 f5 f6 f7 f8 f9 f10 f11 f12 f13 f14 f15 _ f17 f18 f19 =>
    Build_FlatbuffersStreamingParser
      f0 f1 f2 f3 f4 f5 f6 f7 f8 f9 f10 f11 f12 f13 f14 f15 v f17 f18 f19
  end.

Definition with_needs_close_object (v : bool) (p : Parser) : Parser :=
  match p with
  | Build_FlatbuffersStreamingParser
      f0 f1 f2 f3 f4 f5 f6 f7 f8 f9 f10 f11 f12 f13 f14 f15 f16 _ f18 f19 =>
    Build_FlatbuffersStreamingParser
      f0 f1 f2 f3 f4 f5 f6 f7 f8 f9 f10 f11 f12 f13 f14 f15 f16 v f18 f19
  end.

Definition with_schema (v : pointer reflection.Schema) (p : Parser) : Parser :=
  match p with
  | Build_FlatbuffersStreamingParser
      f0 f1 f2 f3 f4 f5 f6 f7 f8 f9 f10 f11 f12 f13 f14 f15 f16 f17 _ f19 =>
    Build_FlatbuffersStreamingParser
      f0 f1 f2 f3 f4 f5 f6 f7 f8 f9 f10 f11 f12 f13 f14 f15 f16 f17 v f19
  end.

Definition with_reflection_table (v : pointer reflection.Object) (p : Parser) : Parser :=
  match p with
  | Build_FlatbuffersStreamingParser
      f0 f1 f2 f3 f4 f5 f6 f7 f8 f9 f10 f11 f12 f13 f14 f15 f16 f17 f18 _ =>
    Build_FlatbuffersStreamingParser
      f0 f1 f2 f3 f4 f5 f6 f7 f8 f9 f10 f11 f12 f13 f14 f15 f16 f17 f18 v
  end.

(** The external collaborators.  Each answers from the log of the calls
    made before it.
    - [idl_parse_schema]: [parser.Parse] on the textual schema;
    - [VerifySchemaBuffer], [GetSchema]: the binary reflection schema;
    - [SetRootType], [parse_json], [VerifyBuffer], [UnPackTo]: the encode,
      verify and decode steps on a reconstructed text;
    - [indeterminate_schema], [indeterminate_table]: what the storage of
      the two reflection members holds when the object is created; they have
      no initialiser, and keep this value until they are assigned;
    - [unrepresentable]: see [double_to_int]. *)
Record Collaborators : Type := {
  idl_parse_schema : list call -> string -> bool;
  VerifySchemaBuffer : list call -> string -> bool;
  GetSchema : string -> option reflection.Schema;
  SetRootType : list call -> bool -> bool;
  parse_json : list call -> string -> option Buffer;
  VerifyBuffer : list call -> bool -> Buffer -> bool;
  UnPackTo_message : Buffer -> MessageT;
  UnPackTo_error : Buffer -> ErrorT;
  indeterminate_schema : pointer reflection.Schema;
  indeterminate_table : pointer reflection.Object;
  unrepresentable : spec_float -> Z
}.

Context (env : Collaborators).

(** *** [clear] *)

Definition clear (p : Parser) : Parser :=
  (* Reset error state *)
  let p := with_is_parse_error false p in
  let p := with_is_error_path false p in
  (* Input parsing state *)
  let p := with_object_depth 0 p in
  let p := with_array_depth 0 p in
  let p := with_object_idx 0 p in
  let p := with_array_idx 0 p in
  let p := with_current_path [] p in
  let p := with_current_key "" p in
  (* Output state *)
  let p := with_ss "" p in
  let p := with_emit_json false p in
  let p := with_needs_close_array false p in
  with_needs_close_object false p.

(** *** Primitive values *)

Definition set_null (p : Parser) : bool * Parser :=
  (true, if emit_json p then with_ss (ss p +++ "null") p else p).

Definition set_bool (b : bool) (p : Parser) : bool * Parser :=
  (true,
   if emit_json p
   then with_ss (ss p +++ (if b then "true" else "false")) p
   else p).

Definition set_int64 (i : Z) (p : Parser) : bool * Parser :=
  (true, if emit_json p then with_ss (ss p +++ string_of_Z i) p else p).

Definition set_number (d : spec_float) (p : Parser) : bool * Parser :=
  (true,
   if emit_json p
   then with_ss (ss p +++ string_of_Z (double_to_int (unrepresentable env) d)) p
   else p).

(** [parse_string]: [s] and [ok] are what the tokenizer's [_parse_string]
    produced; the text is appended whether or not [ok] holds. *)
Definition parse_string (s : string) (ok : bool) (p : Parser)
  : bool * Parser :=
  (ok, if emit_json p then with_ss (ss p +++ dquote +++ s +++ dquote) p else p).

(** *** Arrays *)

Definition parse_array_start (p : Parser) : bool * Parser :=
  let p := with_array_depth (int_wrap (array_depth p + 1)) p in
  let p := with_array_idx 0 p in
  (true, if emit_json p then with_ss (ss p +++ "[") p else p).

Definition parse_array_stop (_ : nat) (p : Parser) : bool * Parser :=
  let p := with_array_depth (int_wrap (array_depth p - 1)) p in
  let p := with_array_idx (-1) p in
  (true, if emit_json p then with_ss (ss p +++ "]") p else p).

Definition parse_object_start (p : Parser) : bool * Parser :=
  let p := with_object_depth (int_wrap (object_depth p + 1)) p in
  let p := with_object_idx 0 p in
  (true, p).

(** *** Keyed-table detection *)

Definition is_Obj (b : reflection.BaseType) : bool :=
  reflection.BaseType_eqb b reflection.Obj.

Definition is_Vector (b : reflection.BaseType) : bool :=
  reflection.BaseType_eqb b reflection.Vector.

(** [schema->objects()], read through [schema]: [None] when [schema] is not
    the address of a schema, and control is lost. *)
Definition schema_objects (p : Parser) : option (list reflection.Object) :=
  match schema p with
  | address sch => Some (reflection.objects sch)
  | _ => None
  end.

(** [reflection_table = schema->objects()->Get(i)] *)
Definition assign_reflection_table (i : Z) (p : Parser) : option Parser :=
  match schema_objects p with
  | Some objects =>
      Some (with_reflection_table (of_option (reflection.Get objects i)) p)
  | None => None
  end.

(** The result is [None] when control is lost: [reflection_table] or
    [schema] is read through while it is wild, or [schema] while it is
    null. *)
Definition check_for_keyed_vector_table (key : string) (p : Parser)
  : option (bool * Parser) :=
  match reflection_table p with
  | nullptr => Some (false, p)
  | wild => None
  | address table =>
      match reflection.fields table with
      | None => Some (false, p)
      | Some fields =>
          let id_field := reflection.LookupByKey "id" fields in
          let val_field := reflection.LookupByKey "val" fields in
          match id_field, val_field with
          | Some _, Some val_field =>
              if is_Obj (reflection.base_type (reflection.type val_field))
              then
                match
                  assign_reflection_table
                    (reflection.index (reflection.type val_field)) p
                with
                | Some p =>
                    match reflection_table p with
                    | nullptr => Some (false, p)
                    | _ => Some (true, p)
                    end
                | None => None
                end
              else Some (false, p)
          | _, _ =>
              match reflection.LookupByKey (c_str key) fields with
              | None => Some (false, p)
              | Some field =>
                  let ty := reflection.type field in
                  match
                    if is_Obj (reflection.base_type ty)
                    then assign_reflection_table (reflection.index ty) p
                    else Some p
                  with
                  | Some p =>
                      match
                        if is_Vector (reflection.base_type ty)
                        then if is_Obj (reflection.element ty)
                             then assign_reflection_table
                                    (reflection.index ty) p
                             else Some p
                        else Some p
                      with
                      | Some p => Some (false, p)
                      | None => None
                      end
                  | None => None
                  end
              end
          end
      end
  end.

(** *** The encode, verify, decode and sink pipeline

    A result of [None] means that control did not return: an empty
    [std::function] was invoked.  The encoder is handed [ss.str().c_str()]. *)

Definition convert_json_stream_to_flatbuffer (p : Parser) (h : list call)
  : option bool * list call :=
  if flatbuffers_parser_ready p then
    let ok := SetRootType env h (is_error_path p) in
    let h := h ++ [CallSetRootType (is_error_path p)] in
    if ok then
      let built := parse_json env h (c_str (ss p)) in
      let h := h ++ [CallParseJson (c_str (ss p))] in
      match built with
      | Some buf =>
          if negb (is_error_path p) then
            (* Take the callback path *)
            let ok := VerifyBuffer env h false buf in
            let h := h ++ [CallVerifyBuffer false buf] in
            if ok then
              let message := UnPackTo_message env buf in
              match callback p with
              | Some f => (Some (f h message), h ++ [CallMessageSink message])
              | None => (None, h ++ [CallEmptyFunction])
              end
            else (Some false, h)
          else
            (* Take the errback path *)
            let ok := VerifyBuffer env h true buf in
            let h := h ++ [CallVerifyBuffer true buf] in
            if ok then
              let error := UnPackTo_error env buf in
              match errback p with
              | Some f => (Some (f h error), h ++ [CallErrorSink error])
              | None => (None, h ++ [CallEmptyFunction])
              end
            else (Some false, h)
      | None => (Some false, h)
      end
    else (Some false, h)
  else (Some false, h).

Definition process_item (p : Parser) (h : list call)
  : option bool * Parser * list call :=
  match convert_json_stream_to_flatbuffer p h with
  | (Some ok, h) =>
      (* reset the JSON output stream *)
      (Some ok, with_ss "" p, h)
  | (None, h) => (None, p, h)
  end.

(** *** Running the handlers

    An [outcome] is what a handler that drives nested parsing leaves
    behind: the engine states after each handler step in order of
    occurrence ([trace]), the last of them ([final]), the collaborator log
    ([calls]), and the value returned ([returned], [None] when control did
    not return: an empty [std::function] was invoked, or a pointer that is
    null or wild was read through). *)
Record outcome : Type := {
  trace : list Parser;
  final : Parser;
  calls : list call;
  returned : option bool
}.

Definition done (r : bool * Parser) (h : list call) : outcome :=
  {| trace := [snd r]; final := snd r; calls := h; returned := Some (fst r) |}.

Definition after (p : Parser) (r : outcome) : outcome :=
  {| trace := p :: trace r; final := final r;
     calls := calls r; returned := returned r |}.

(** [r && k]: [k] runs only if [r] returned [true]. *)
Definition and_then (r : outcome) (k : Parser -> list call -> outcome)
  : outcome :=
  match returned r with
  | Some true =>
      let r' := k (final r) (calls r) in
      {| trace := trace r ++ trace r'; final := final r';
         calls := calls r'; returned := returned r' |}
  | _ => r
  end.

(** *** Array items *)

Definition parse_array_item (_parse : Parser -> list call -> outcome)
           (i : nat) (p : Parser) (h : list call) : outcome :=
  (* print leading comma (it should have followed last parsed item) *)
  let p :=
    if emit_json p
    then if 0 <? array_idx p then with_ss (ss p +++ ",") p else p
    else p in
  let p := with_array_idx (int_wrap (array_idx p + 1)) p in
  after p (_parse p h).

(** *** Objects *)

(** The locals of one [parse_object_item] activation that are read again
    after the nested value has been parsed. *)
Record item_locals : Type := {
  reflection_table_prev : pointer reflection.Object;
  keyed_vector_table_found : bool;
  needs_close_array_prev : bool;
  needs_close_object_prev : bool
}.

(** [parse_object_item], from the return of [check_for_keyed_vector_table],
    whose result is [keyed_vector_table_found], to the nested [_parse]
    call. *)
Definition parse_object_item_push (key : string)
           (reflection_table_prev : pointer reflection.Object)
           (keyed_vector_table_found : bool) (p : Parser)
  : item_locals * Parser :=
  (* Capture and push the current object key onto the current path *)
  let p := with_current_key key p in
  let p := with_current_path (current_path p ++ [current_key p]) p in
  (* Check for error path first *)
  let p :=
    with_is_error_path (is_a_subpath (current_path p) (error_path p)) p in
  let emit_json_prev := emit_json p in
  (* Start outputting JSON if either with error or message path *)
  let p :=
    with_emit_json
      (is_error_path p || is_a_subpath (current_path p) (root_path p)) p in
  let p :=
    if emit_json p then
      if keyed_vector_table_found then
        let p :=
          if negb emit_json_prev then p
          else if negb (needs_close_array p)
               then with_needs_close_array true (with_ss (ss p +++ "[") p)
               else with_ss (ss p +++ ",") p in
        (* Print key with array/object indirection *)
        let p :=
          with_ss (ss p +++ "{" +++ dquote +++ "id" +++ dquote +++ ":"
                        +++ dquote +++ key +++ dquote +++ ","
                        +++ dquote +++ "val" +++ dquote +++ ":") p in
        with_needs_close_object true p
      else
        let p :=
          if negb (needs_close_object p)
          then with_needs_close_object true (with_ss (ss p +++ "{") p)
          else with_ss (ss p +++ ",") p in
        (* Print key *)
        with_ss (ss p +++ dquote +++ key +++ dquote +++ ":") p
    else p in
  let needs_close_array_prev := needs_close_array p in
  let needs_close_object_prev := needs_close_object p in
  let p := with_needs_close_array false p in
  let p := with_needs_close_object false p in
  ({| reflection_table_prev := reflection_table_prev;
      keyed_vector_table_found := keyed_vector_table_found;
      needs_close_array_prev := needs_close_array_prev;
      needs_close_object_prev := needs_close_object_prev |}, p).

(** [parse_object_item], up to the nested [_parse] call; [None] when
    control is lost in [check_for_keyed_vector_table]. *)
Definition parse_object_item_enter (key : string) (p : Parser)
  : option (item_locals * Parser) :=
  (* Store the previous reflection table *)
  let reflection_table_prev := reflection_table p in
  match check_for_keyed_vector_table key p with
  | Some (keyed_vector_table_found, p) =>
      Some (parse_object_item_push key reflection_table_prev
              keyed_vector_table_found p)
  | None => None
  end.

(** [parse_object_item], from the return of the nested [_parse] call, whose
    result is [ok], to the end.  The last component is the value returned,
    [None] when control did not return. *)
Definition parse_object_item_leave (l : item_locals) (ok : bool)
           (q : Parser) (h : list call) : Parser * list call * option bool :=
  let q := with_needs_close_array (needs_close_array_prev l) q in
  let q := with_needs_close_object (needs_close_object_prev l) q in
  let q := with_reflection_table (reflection_table_prev l) q in
  let q := with_object_idx (int_wrap (object_idx q + 1)) q in
  (* pop the key, it has now been parsed *)
  let q := with_current_path (removelast (current_path q)) q in
  if is_a_subpath (current_path q) (root_path q) then (q, h, Some ok)
  else if emit_json q then (* check if we were emitting *)
    let q :=
      if negb (keyed_vector_table_found l)
      then with_ss (ss q +++ "}") q
      else q in
    match process_item q h with
    | (Some sent, q, h) =>
        let q := if negb sent then with_is_parse_error true q else q in
        let q := with_emit_json false q in
        (q, h, Some ok)
    | (None, q, h) => (q, h, None)
    end
  else
    let q := with_emit_json false q in
    (q, h, Some ok).

Definition parse_object_item (_parse : Parser -> list call -> outcome)
           (key : string) (p : Parser) (h : list call) : outcome :=
  match parse_object_item_enter key p with
  | None => {| trace := []; final := p; calls := h; returned := None |}
  | Some (l, p) =>
      let r := _parse p h in
      match returned r with
      | None => after p r
      | Some ok =>
          let '(q, h, result) :=
            parse_object_item_leave l ok (final r) (calls r) in
          {| trace := p :: trace r ++ [q]; final := q;
             calls := h; returned := result |}
      end
  end.

(** [parse_object_stop], the closing text it writes while emitting. *)
Definition parse_object_stop_close (p : Parser) : Parser :=
  if needs_close_array p then
    with_needs_close_array false (with_ss (ss p +++ "]") p)
  else if needs_close_object p then
    (* We did expect at least one of these *)
    let p := with_ss (ss p +++ "}") p in
    let p :=
      if negb (empty (root_path p)) then
        (* We will be missing one of these at this point in regular parsing *)
        with_ss (ss p +++ "}") p
      else p in
    with_needs_close_object false p
  else with_ss (ss p +++ "}") p.

Definition parse_object_stop (p : Parser) (h : list call) : outcome :=
  let p := with_current_key "" p in
  let p := with_object_depth (int_wrap (object_depth p - 1)) p in
  let p := with_object_idx (-1) p in
  if emit_json p then
    let p := parse_object_stop_close p in
    if object_depth p =? 0 then
      match process_item p h with
      | (Some _, p, h) => done (true, p) h
      | (None, p, h) =>
          {| trace := [p]; final := p; calls := h; returned := None |}
      end
    else done (true, p) h
  else done (true, p) h.

(** *** The traversal

    Modelled from the spec: the order in which the tokenizer ([picojson.h],
    not part of this source tree) invokes the handlers.  Each handler's
    result is tested; a [false] stops the traversal at once. *)

Fixpoint _parse (v : json) (p : Parser) (h : list call) {struct v}
  : outcome :=
  match v with
  | JNull => done (set_null p) h
  | JBool b => done (set_bool b p) h
  | JInt64 i => done (set_int64 i p) h
  | JNumber d => done (set_number d p) h
  | JString s => done (parse_string s true p) h
  | JBadString s => done (parse_string s false p) h
  | JSyntaxError =>
      {| trace := []; final := p; calls := h; returned := Some false |}
  | JArray a =>
      and_then (done (parse_array_start p) h) (_parse_array a 0)
  | JObject o =>
      and_then (done (parse_object_start p) h) (_parse_object o)
  end
with _parse_array (a : items) (idx : nat) (p : Parser) (h : list call)
     {struct a} : outcome :=
  match a with
  | ItemsEnd => done (parse_array_stop idx p) h
  | ItemsError =>
      {| trace := []; final := p; calls := h; returned := Some false |}
  | ItemsCons v rest =>
      and_then (parse_array_item (_parse v) idx p h)
               (_parse_array rest (S idx))
  end
with _parse_object (o : members) (p : Parser) (h : list call)
     {struct o} : outcome :=
  match o with
  | MembersEnd => parse_object_stop p h
  | MembersError =>
      {| trace := []; final := p; calls := h; returned := Some false |}
  | MembersCons key v rest =>
      and_then (parse_object_item (_parse v) key p h) (_parse_object rest)
  end.

(** *** Schema loading and construction *)

Definition parse_flatbuffers_text_schema (buf : string) (h : list call)
  : bool * list call :=
  if negb (is_empty buf) then
    match last_char buf with
    | Some eof =>
        if Ascii.eqb eof nul
        then (idl_parse_schema env h (c_str buf),
              h ++ [CallParseSchema (c_str buf)])
        else (false, h)
    | None => (false, h)
    end
  else (false, h).

Definition parse_flatbuffers_binary_schema (buf : string) (p : Parser)
           (h : list call) : bool * Parser * list call :=
  if negb (is_empty buf) then
    match last_char buf with
    | Some eof =>
        if Ascii.eqb eof nul then
          let verified := VerifySchemaBuffer env h buf in
          let h := h ++ [CallVerifySchemaBuffer buf] in
          if verified then
            let p := with_schema (of_option (GetSchema env buf)) p in
            match schema p with
            | nullptr => (false, p, h)
            | _ => (true, p, h)
            end
          else (false, p, h)
        else (false, p, h)
    | None => (false, p, h)
    end
  else (false, p, h).

(** The members as their default initialisers leave them; [schema] and
    [reflection_table] have none, and hold what their storage held. *)
Definition default_initialised : Parser :=
  {| root_path := [];
     callback := None;
     error_path := [];
     errback := None;
     parser_opts :=
       {| strict_json := false; skip_unexpected_fields_in_json := false |};
     flatbuffers_parser_ready := false;
     is_parse_error := false;
     is_error_path := false;
     object_depth := 0;
     array_depth := 0;
     object_idx := 0;
     array_idx := 0;
     current_path := [];
     current_key := "";
     ss := "";
     emit_json := false;
     needs_close_array := false;
     needs_close_object := false;
     schema := indeterminate_schema env;
     reflection_table := indeterminate_table env |}.

(** The constructor. *)
Definition FlatbuffersStreamingParser_ctor (text_schema binary_schema : string)
  : Parser * list call :=
  let p := clear default_initialised in
  let p :=
    with_parser_opts
      {| strict_json := false; skip_unexpected_fields_in_json := true |} p in
  let '(ok, h) := parse_flatbuffers_text_schema text_schema [] in
  let p := if ok then with_flatbuffers_parser_ready true p else p in
  let '(ok, p, h) := parse_flatbuffers_binary_schema binary_schema p h in
  let p :=
    if ok then
      (* [schema] is the address of a schema: the load succeeded *)
      match schema p with
      | address sch =>
          with_reflection_table (of_option (reflection.root_table sch)) p
      | _ => p
      end
    else p in
  (p, h).

(** *** [parse_stream]

    [resp] is the document the tokenizer reads from the stream.  The
    tokenizer's error text is empty exactly when the traversal returned
    [true]. *)
Definition parse_stream (resp : json)
           (_root_path : list string)
           (_callback : option (list call -> MessageT -> bool))
           (_error_path : list string)
           (_errback : option (list call -> ErrorT -> bool))
           (p : Parser) (h : list call) : outcome :=
  (* Reset existing state *)
  let p := clear p in
  let p := with_root_path _root_path p in
  let p := with_callback _callback p in
  let p := with_error_path _error_path p in
  let p := with_errback _errback p in
  let r := _parse resp p h in
  {| trace := p :: trace r;
     final := final r;
     calls := calls r;
     returned :=
       match returned r with
       | Some err_empty =>
           Some (err_empty && negb (is_parse_error (final r)))
       | None => None
       end |}.

(** *** Reading the log *)

(** The sink a logged call invoked, if it invoked one: [true] for the error
    sink, [false] for the message sink. *)
Definition sink_kind (c : call) : option bool :=
  match c with
  | CallMessageSink _ => Some false
  | CallErrorSink _ => Some true
  | _ => None
  end.

(** The sinks invoked by a stretch of the log, in order. *)
Fixpoint sinks (l : list call) : list bool :=
  match l with
  | [] => []
  | c :: rest =>
      match sink_kind c with
      | Some kind => kind :: sinks rest
      | None => sinks rest
      end
  end.

End Engine.

(** ** Worked examples

    Concrete collaborators, schemas and documents used to evaluate the
    engine.  The decoded records and the binary buffer are the text they
    were built from. *)

Definition quoted (s : string) : string := dquote +++ s +++ dquote.

Definition zero_terminated (s : string) : string :=
  s +++ String nul EmptyString.

Definition example_log : Type := list (@call string string string).

(** Collaborators that accept every schema and every text; [sch] is the
    reflection schema the binary buffer holds.  The storage of a new engine
    holds no usable pointers. *)
Definition agreeable (sch : option reflection.Schema)
  : @Collaborators string string string :=
  {| idl_parse_schema := fun _ _ => true;
     VerifySchemaBuffer := fun _ _ => true;
     GetSchema := fun _ => sch;
     SetRootType := fun _ _ => true;
     parse_json := fun _ text => Some text;
     VerifyBuffer := fun _ _ _ => true;
     UnPackTo_message := fun buf => buf;
     UnPackTo_error := fun buf => buf;
     indeterminate_schema := wild;
     indeterminate_table := wild;
     unrepresentable := fun _ => int_min |}.

(** The same collaborators where the storage of a new engine is zeroed. *)
Definition agreeable_zeroed (sch : option reflection.Schema)
  : @Collaborators string string string :=
  {| idl_parse_schema := fun _ _ => true;
     VerifySchemaBuffer := fun _ _ => true;
     GetSchema := fun _ => sch;
     SetRootType := fun _ _ => true;
     parse_json := fun _ text => Some text;
     VerifyBuffer := fun _ _ _ => true;
     UnPackTo_message := fun buf => buf;
     UnPackTo_error := fun buf => buf;
     indeterminate_schema := nullptr;
     indeterminate_table := nullptr;
     unrepresentable := fun _ => int_min |}.

Definition accepting_sink : option (example_log -> string -> bool) :=
  Some (fun _ _ => true).

Definition rejecting_sink : option (example_log -> string -> bool) :=
  Some (fun _ _ => false).

Definition text_schema_example : string := zero_terminated "table R {}".
Definition binary_schema_example : string := zero_terminated "BFBS".

(** An engine constructed from two schema buffers that load. *)
Definition engine (sch : option reflection.Schema)
  : FlatbuffersStreamingParser * example_log :=
  FlatbuffersStreamingParser_ctor (agreeable sch)
    text_schema_example binary_schema_example.

Definition scalar_type (b : reflection.BaseType) : reflection.Type_ :=
  {| reflection.base_type := b;
     reflection.element := reflection.None_;
     reflection.index := -1 |}.

Definition object_type (i : Z) : reflection.Type_ :=
  {| reflection.base_type := reflection.Obj;
     reflection.element := reflection.None_;
     reflection.index := i |}.

Definition value_table : reflection.Object :=
  {| reflection.object_name := "V";
     reflection.fields :=
       Some [ {| reflection.name := "n";
                 reflection.type := scalar_type reflection.Int |} ] |}.

(** A table with the fields [id] and [val]. *)
Definition id_val_table : reflection.Object :=
  {| reflection.object_name := "R";
     reflection.fields :=
       Some [ {| reflection.name := "id";
                 reflection.type := scalar_type reflection.String_ |};
              {| reflection.name := "val";
                 reflection.type := object_type 1 |} ] |}.

(** A table with the fields [identifier] and [value]. *)
Definition identifier_value_table : reflection.Object :=
  {| reflection.object_name := "R";
     reflection.fields :=
       Some [ {| reflection.name := "identifier";
                 reflection.type := scalar_type reflection.String_ |};
              {| reflection.name := "value";
                 reflection.type := object_type 1 |} ] |}.

Definition schema_with_root (root : reflection.Object) : reflection.Schema :=
  {| reflection.objects := [root; value_table];
     reflection.root_table := Some root |}.

(** A reflection schema whose root table has the one field [n]. *)
Definition loaded : option reflection.Schema :=
  Some (schema_with_root value_table).

Definition member (key : string) (v : json) : json :=
  JObject (MembersCons key v MembersEnd).

(** [{"a":1}] *)
Definition doc_a : json := member "a" (JInt64 1).

(** [{"a":{"b":1}}] *)
Definition doc_a_b : json := member "a" (member "b" (JInt64 1)).

(** [{"k":1,"j":2}] *)
Definition doc_k_j : json :=
  JObject (MembersCons "k" (JInt64 1) (MembersCons "j" (JInt64 2) MembersEnd)).

(** [{"err":2,"a":1}] *)
Definition doc_err_a : json :=
  JObject
    (MembersCons "err" (JInt64 2) (MembersCons "a" (JInt64 1) MembersEnd)).

(** [{"a":[{"b":null},true],"c":"s"}] *)
Definition doc_nested : json :=
  JObject
    (MembersCons "a"
       (JArray (ItemsCons (member "b" JNull) (ItemsCons (JBool true) ItemsEnd)))
       (MembersCons "c" (JString "s") MembersEnd)).

(** The doubles 3.9, -3.9 and 1e10. *)
Definition double_3_9 : spec_float := S754_finite false 8782019273372467 (-51).
Definition double_minus_3_9 : spec_float :=
  S754_finite true 8782019273372467 (-51).
Definition double_1e10 : spec_float := S754_finite false 5242880000000000 (-19).

(** The locals of [parse_object_item] at a key that is the first of its
    object, when capturing is active and no keyed table is found. *)
Definition first_key_locals : item_locals :=
  {| reflection_table_prev := address value_table;
     keyed_vector_table_found := false;
     needs_close_array_prev := false;
     needs_close_object_prev := true |}.

(** [parse_stream] on an engine built by the constructor. *)
Definition run (sch : option reflection.Schema) (doc : json)
           (root : list string) (callback : option (example_log -> string -> bool))
           (error : list string) (errback : option (example_log -> string -> bool))
  : outcome :=
  parse_stream (agreeable sch) doc root callback error errback
               (fst (engine sch)) (snd (engine sch)).

(** ** Vocabulary of the further properties *)

(** A schema buffer the loaders look into: it is not empty and its last
    byte is the null terminator. *)
Definition terminated (buf : string) : bool :=
  negb (is_empty buf)
  && match last_char buf with
     | Some eof => Ascii.eqb eof nul
     | None => false
     end.

Section FurtherVocabulary.

Context {MessageT ErrorT Buffer : Type}.

Local Abbreviation Parser := (@FlatbuffersStreamingParser MessageT ErrorT Buffer).

(** What the handlers of primitive values, of array boundaries and of the
    start of an object leave alone: everything but the text, the depth
    counters and the indices; and the text too while nothing is captured. *)
Definition same_flags (p q : Parser) : Prop :=
  root_path q = root_path p /\ error_path q = error_path p /\
  callback q = callback p /\ errback q = errback p /\
  flatbuffers_parser_ready q = flatbuffers_parser_ready p /\
  schema q = schema p /\ reflection_table q = reflection_table p /\
  is_parse_error q = is_parse_error p /\
  is_error_path q = is_error_path p /\
  current_path q = current_path p /\
  emit_json q = emit_json p /\
  needs_close_array q = needs_close_array p /\
  needs_close_object q = needs_close_object p /\
  (emit_json p = false -> ss q = ss p).

(** The reflection pointers can be read through wherever the keyed-table
    detection does so: the cursor is null, or the cursor and [schema] both
    hold the address of an object. *)
Definition dereferenceable (p : Parser) : Prop :=
  reflection_table p = nullptr \/
  ((exists table, reflection_table p = address table) /\
   exists sch, schema p = address sch).

(** The sticky flag is set in every state of the outcome. *)
Definition flagged (r : @outcome MessageT ErrorT Buffer) : Prop :=
  Forall (fun s => is_parse_error s = true) (trace r) /\
  is_parse_error (final r) = true.

(** A flag that is set in some state of the trace is set at the end. *)
Definition sticky (r : @outcome MessageT ErrorT Buffer) : Prop :=
  forall s, In s (trace r) -> is_parse_error s = true ->
            is_parse_error (final r) = true.

(** Control returned, with the reflection cursor where it was in [p]. *)
Definition cursor_restored (p : Parser) (r : @outcome MessageT ErrorT Buffer)
  : Prop :=
  returned r <> None -> reflection_table (final r) = reflection_table p.

(** The traversal returned [b], if control returned. *)
Definition verdict (b : bool) (r : @outcome MessageT ErrorT Buffer) : Prop :=
  returned r = Some b \/ returned r = None.

(** Control returned from the traversal. *)
Definition returns (r : @outcome MessageT ErrorT Buffer) : Prop :=
  returned r <> None.

(** Both sinks hold a function. *)
Definition sinks_present (p : Parser) : Prop :=
  callback p <> None /\ errback p <> None.

(** The traversal captured nothing: it returned, leaving the buffer, the
    capture flag and the sticky flag as they were in [p], and the log as it
    was. *)
Definition inert (p : Parser) (h : list (@call MessageT ErrorT Buffer))
           (r : @outcome MessageT ErrorT Buffer) : Prop :=
  emit_json (final r) = false /\ ss (final r) = ss p /\
  is_parse_error (final r) = is_parse_error p /\
  calls r = h /\ returned r <> None.

End FurtherVocabulary.

(** An object without members. *)
Definition member_free_members (o : members) : bool :=
  match o with
  | MembersCons _ _ _ => false
  | _ => true
  end.

(** A document in which no object has a member. *)
Fixpoint member_free (v : json) : bool :=
  match v with
  | JArray a => member_free_items a
  | JObject o => member_free_members o
  | _ => true
  end
with member_free_items (a : items) : bool :=
  match a with
  | ItemsCons v rest => member_free v && member_free_items rest
  | _ => true
  end.

(** *** Compact JSON text

    The text of a document as a JSON writer without white space produces
    it; strings are written between quotes as they are, and a floating-point
    number as the integer [(int)] makes of it (see [double_to_int]). *)

Definition render_scalar (unrepresentable : spec_float -> Z) (v : json)
  : string :=
  match v with
  | JNull => "null"
  | JBool b => if b then "true" else "false"
  | JInt64 i => string_of_Z i
  | JNumber d => string_of_Z (double_to_int unrepresentable d)
  | JString s | JBadString s => dquote +++ s +++ dquote
  | _ => ""
  end.

Fixpoint render (unrepresentable : spec_float -> Z) (v : json) : string :=
  match v with
  | JArray a => "[" +++ render_items unrepresentable true a
  | JObject o => "{" +++ render_members unrepresentable true o
  | _ => render_scalar unrepresentable v
  end
with render_items (unrepresentable : spec_float -> Z) (first : bool)
                  (a : items) : string :=
  match a with
  | ItemsCons v rest =>
      (if first then "" else ",")
      +++ render unrepresentable v
      +++ render_items unrepresentable false rest
  | _ => "]"
  end
with render_members (unrepresentable : spec_float -> Z) (first : bool)
                    (o : members) : string :=
  match o with
  | MembersCons key v rest =>
      (if first then "" else ",")
      +++ dquote +++ key +++ dquote +++ ":"
      +++ render unrepresentable v
      +++ render_members unrepresentable false rest
  | _ => "}"
  end.

(** *** The documents that are reconstructed verbatim *)

Definition is_scalar (v : json) : bool :=
  match v with
  | JNull | JBool _ | JInt64 _ | JNumber _ | JString _ => true
  | _ => false
  end.

Definition has_member (o : members) : bool :=
  match o with
  | MembersCons _ _ _ => true
  | _ => false
  end.

Fixpoint items_count (a : items) : Z :=
  match a with
  | ItemsCons _ rest => 1 + items_count rest
  | _ => 0
  end.

(** A value without arrays: a scalar, or an object with at least one member
    whose values are without arrays. *)
Fixpoint array_free (v : json) : bool :=
  match v with
  | JObject o => has_member o && array_free_members o
  | JArray _ => false
  | _ => is_scalar v
  end
with array_free_members (o : members) : bool :=
  match o with
  | MembersEnd => true
  | MembersError => false
  | MembersCons _ v rest => array_free v && array_free_members rest
  end.

Fixpoint array_free_items (a : items) : bool :=
  match a with
  | ItemsEnd => true
  | ItemsError => false
  | ItemsCons v rest => array_free v && array_free_items rest
  end.

(** A plain value: a scalar; an array, of fewer than [2^31] items, whose
    items are without arrays; or an object with at least one member whose
    values are plain. *)
Fixpoint plain (v : json) : bool :=
  match v with
  | JObject o => has_member o && plain_members o
  | JArray a => array_free_items a && (items_count a <=? int_max)
  | _ => is_scalar v
  end
with plain_members (o : members) : bool :=
  match o with
  | MembersEnd => true
  | MembersError => false
  | MembersCons _ v rest => plain v && plain_members rest
  end.

(** A table that the keyed-table rewrite does not apply to: it lacks the
    field [id] or the field [val]. *)
Definition unkeyed_table (t : reflection.Object) : bool :=
  match reflection.fields t with
  | None => true
  | Some fields =>
      match reflection.LookupByKey "id" fields,
            reflection.LookupByKey "val" fields with
      | Some _, Some _ => false
      | _, _ => true
      end
  end.


(** ** Vocabulary of the properties *)

Section Vocabulary.

Context {MessageT ErrorT Buffer : Type}.

Local Abbreviation Parser := (@FlatbuffersStreamingParser MessageT ErrorT Buffer).

(** The members that only [parse_stream] and the constructor assign. *)
Definition same_configuration (p q : Parser) : Prop :=
  root_path q = root_path p /\ error_path q = error_path p /\
  callback q = callback p /\ errback q = errback p /\
  parser_opts q = parser_opts p /\
  flatbuffers_parser_ready q = flatbuffers_parser_ready p /\
  schema q = schema p.

(** What a handler leaves alone besides the configuration: the position in
    the document and the error-path flag. *)
Definition same_position (p q : Parser) : Prop :=
  same_configuration p q /\
  current_path q = current_path p /\
  object_depth q = object_depth p /\
  array_depth q = array_depth p /\
  is_error_path q = is_error_path p.

(** What every traversal guarantees of its outcome: the configuration is
    untouched, the log has only grown, and, if control returned, every key
    pushed on the current path has been popped again. *)
Definition balanced (p : Parser) (h : list call) (r : outcome) : Prop :=
  same_configuration p (final r) /\
  (exists new, calls r = h ++ new) /\
  (returned r <> None -> current_path (final r) = current_path p).

(** The invariant of the depth counters and the current path. *)
Definition depth_invariant (p : Parser) : Prop :=
  0 <= object_depth p /\ 0 <= array_depth p /\
  Z.of_nat (length (current_path p)) <= object_depth p.

(** The position in the document is the same in [q] as in [p], except that
    the object depth moved by [dobj] and the array depth by [darr]. *)
Definition moved (dobj darr : Z) (p q : Parser) : Prop :=
  object_depth q = object_depth p + dobj /\
  array_depth q = array_depth p + darr /\
  current_path q = current_path p.

(** What a traversal of a well-formed part of the document achieves. *)
Definition keeps_depths (dobj darr : Z) (p : Parser) (r : outcome) : Prop :=
  Forall depth_invariant (trace r) /\
  (returned r <> None -> returned r = Some true /\ moved dobj darr p (final r)).

(** A traversal that asks nothing of the collaborators and returns. *)
Definition silent (h : list (@call MessageT ErrorT Buffer))
           (r : @outcome MessageT ErrorT Buffer) : Prop :=
  calls r = h /\ returned r <> None.

(** The engine stands at or below a key that the error pattern matches,
    and the flag says so. *)
Definition on_error_path (p : Parser) : Prop :=
  is_error_path p = true /\
  is_a_subpath (current_path p) (error_path p) = true.

(** Every sink invoked by the traversal is the error sink, and the flag is
    still set when control returns. *)
Definition only_error_sink (h : list (@call MessageT ErrorT Buffer))
           (r : @outcome MessageT ErrorT Buffer)
  : Prop :=
  (exists new, calls r = h ++ new /\ Forall (eq true) (sinks new)) /\
  (returned r <> None -> is_error_path (final r) = true).

(** The handlers never stop the tokenizer: on a document without syntax
    errors a traversal returns [true], unless control is lost in a sink. *)
Definition completes (r : @outcome MessageT ErrorT Buffer) : Prop :=
  returned r = Some true \/ returned r = None.

End Vocabulary.

(** ** Vocabulary of the reconstruction *)

Section ReconstructionVocabulary.

Context {MessageT ErrorT Buffer : Type}.

Local Abbreviation Parser := (@FlatbuffersStreamingParser MessageT ErrorT Buffer).

(** No table the engine can reach is subject to the keyed-table rewrite:
    the reflection cursor is null, or it is at a table that is not and
    [schema] is the address of a schema none of whose tables is. *)
Definition unkeyed (p : Parser) : Prop :=
  reflection_table p = nullptr \/
  exists t sch,
    reflection_table p = address t /\ unkeyed_table t = true /\
    schema p = address sch /\
    Forall (fun t => unkeyed_table t = true) (reflection.objects sch).

(** What capturing a value leaves alone: the configuration, the reflection
    cursor and the sticky flag. *)
Definition capture_frame (p q : Parser) : Prop :=
  same_configuration p q /\
  reflection_table q = reflection_table p /\
  is_parse_error q = is_parse_error p.

(** The engine stands between the members of an object, under the empty
    message pattern; [first] tells that no member has been read yet. *)
Definition between_members (first : bool) (p : Parser) : Prop :=
  root_path p = [] /\ unkeyed p /\
  needs_close_array p = false /\ needs_close_object p = negb first /\
  1 <= object_depth p /\
  (first = false -> emit_json p = true).

(** The engine is capturing under the empty message pattern, below the top
    level of the document, with no wrapper pending. *)
Definition capturing (p : Parser) : Prop :=
  emit_json p = true /\ root_path p = [] /\ unkeyed p /\
  needs_close_array p = false /\ needs_close_object p = false /\
  1 <= object_depth p.

(** A captured value has been written out: the traversal returned [true]
    without a dispatch, the buffer has grown by [text], and the object depth
    is what it was. *)
Definition written (text : string) (p : Parser)
           (h : list (@call MessageT ErrorT Buffer))
           (r : @outcome MessageT ErrorT Buffer) : Prop :=
  returned r = Some true /\ calls r = h /\
  ss (final r) = ss p +++ text /\
  capture_frame p (final r) /\
  capturing (final r) /\
  object_depth (final r) = object_depth p.

(** The outcome [r] is that of closing an object from a state [q] that
    stands between members, at the depth of [p], with [text] and a closing
    brace still to be written to make the buffer that of [p] followed by
    [text]. *)
Definition members_written (env : @Collaborators MessageT ErrorT Buffer)
           (text : string) (p : Parser)
           (h : list (@call MessageT ErrorT Buffer))
           (r : @outcome MessageT ErrorT Buffer) : Prop :=
  exists q,
    between_members false q /\
    ss q +++ "}" = ss p +++ text /\
    capture_frame p q /\
    object_depth q = object_depth p /\
    final r = final (parse_object_stop env q h) /\
    calls r = calls (parse_object_stop env q h) /\
    returned r = returned (parse_object_stop env q h).

End ReconstructionVocabulary.

(** * Properties *)

(** ** The matcher *)

Lemma equality_or_wildcard_spec (root current : string) :
  equality_or_wildcard root current = true <->
  root = wildcard_sym \/ root = current.
Proof.
  unfold equality_or_wildcard.
  rewrite orb_true_iff, !String.eqb_eq. reflexivity.
Qed.

Lemma std_equal_pointwise (Q P : list string) :
  (length Q <= length P)%nat ->
  (std_equal equality_or_wildcard Q P = true <->
   forall i, (i < length Q)%nat ->
             nth i Q "" = wildcard_sym \/ nth i Q "" = nth i P "").
Proof.
  revert P. induction Q as [|q Q IH]; intros P Hlen.
  - simpl. split; [intros _ i Hi; inversion Hi | reflexivity].
  - destruct P as [|p P]; [simpl in Hlen; lia|].
    simpl in Hlen. simpl std_equal.
    rewrite andb_true_iff, equality_or_wildcard_spec, (IH P) by lia.
    split.
    + intros [Hhd Htl] [|i] Hi; simpl; [exact Hhd | apply Htl; simpl in Hi; lia].
    + intros H. split.
      * apply (H 0%nat). simpl. lia.
      * intros i Hi. apply (H (S i)). simpl. lia.
Qed.

Lemma std_equal_app (Q P R : list string) :
  (length Q <= length P)%nat ->
  std_equal equality_or_wildcard Q (P ++ R)
  = std_equal equality_or_wildcard Q P.
Proof.
  revert P. induction Q as [|q Q IH]; intros P Hlen; [reflexivity|].
  destruct P as [|p P]; simpl in Hlen; [lia|].
  simpl. rewrite IH by lia. reflexivity.
Qed.

(** A path that matches keeps matching when it is extended. *)
Lemma is_a_subpath_app (P R Q : list string) :
  is_a_subpath P Q = true -> is_a_subpath (P ++ R) Q = true.
Proof.
  unfold is_a_subpath. destruct Q as [|q Q]; [reflexivity|].
  cbn [empty orb].
  rewrite !andb_true_iff, !Nat.leb_le, length_app.
  intros [Hlen Heq]. split; [lia|].
  rewrite std_equal_app; assumption.
Qed.

(** C1: [is_a_subpath P Q] holds exactly when [Q] is empty, or [Q] is no
    longer than [P] and each of its segments is the wildcard marker or equals
    the segment of [P] at the same index.  In particular the empty pattern
    matches every path, the empty one included, and segments of [P] beyond
    the length of [Q] do not matter. *)
Theorem is_a_subpath_characterisation :
  (forall P Q : list string,
      is_a_subpath P Q = true <->
      Q = [] \/
      ((length Q <= length P)%nat /\
       forall i, (i < length Q)%nat ->
                 nth i Q "" = "*" \/ nth i Q "" = nth i P ""))
  /\ (forall P, is_a_subpath P [] = true)
  /\ (forall P R Q, (length Q <= length P)%nat ->
                    is_a_subpath (P ++ R) Q = is_a_subpath P Q).
Proof.
  split; [|split].
  - intros P Q. destruct Q as [|q Q].
    + simpl. split; [intros _; left; reflexivity | reflexivity].
    + unfold is_a_subpath. cbn [empty orb].
      rewrite andb_true_iff, Nat.leb_le. split.
      * intros [Hlen Heq]. right. split; [exact Hlen|].
        apply std_equal_pointwise; assumption.
      * intros [Hnil | [Hlen Hall]]; [discriminate|].
        split; [exact Hlen|]. apply std_equal_pointwise; assumption.
  - reflexivity.
  - intros P R Q Hlen. unfold is_a_subpath. destruct Q as [|q Q]; [reflexivity|].
    cbn [empty orb]. rewrite std_equal_app by exact Hlen.
    rewrite length_app.
    replace (length (q :: Q) <=? length P + length R)%nat with true
      by (symmetry; apply Nat.leb_le; lia).
    replace (length (q :: Q) <=? length P)%nat with true
      by (symmetry; apply Nat.leb_le; lia).
    reflexivity.
Qed.

(** C1 on the pattern [a, *]: it matches the longer path [a, b, c], and it
    does not match the shorter path [a]. *)
Lemma is_a_subpath_characterisation_witness :
  is_a_subpath ["a"; "b"; "c"] ["a"; "*"] = true /\
  is_a_subpath ["a"] ["a"; "*"] <> true /\
  is_a_subpath (["a"; "b"] ++ ["c"]) ["a"; "*"]
  = is_a_subpath ["a"; "b"] ["a"; "*"].
Proof.
  destruct is_a_subpath_characterisation as [Hiff [_ Hext]].
  split; [|split].
  - apply Hiff. right. split; [simpl; lia|].
    intros [|[|i]] Hi; simpl in *; [right; reflexivity | left; reflexivity | lia].
  - intros H. apply Hiff in H. destruct H as [H | [H _]]; [discriminate|].
    simpl in H. lia.
  - apply Hext. simpl. lia.
Defined.


(** ** Machine integers *)

Lemma int_wrap_small (z : Z) :
  int_min <= z <= int_max -> int_wrap z = z.
Proof.
  unfold int_wrap, int_min, int_max. intros H.
  rewrite Z.mod_small by lia. lia.
Qed.

Lemma int_wrap_range (z : Z) : int_min <= int_wrap z <= int_max.
Proof.
  unfold int_wrap, int_min, int_max.
  pose proof (Z.mod_pos_bound (z + 2 ^ 31) (2 ^ 32) ltac:(lia)). lia.
Qed.

Lemma in_int_range_spec (z : Z) :
  in_int_range z = true <-> int_min <= z <= int_max.
Proof.
  unfold in_int_range. rewrite andb_true_iff, !Z.leb_le. reflexivity.
Qed.

(** ** Handlers, one at a time *)

(** Case analysis on every scrutinee left in the goal. *)
Ltac case_split :=
  repeat (match goal with
          | |- context [match ?x with _ => _ end] => destruct x eqn:?
          end; simpl in *).

Lemma with_reflection_table_same {MessageT ErrorT Buffer : Type}
      (p : @FlatbuffersStreamingParser MessageT ErrorT Buffer) :
  p = with_reflection_table (reflection_table p) p.
Proof. destruct p; reflexivity. Qed.

Lemma with_reflection_table_twice {MessageT ErrorT Buffer : Type}
      (a b : pointer reflection.Object)
      (p : @FlatbuffersStreamingParser MessageT ErrorT Buffer) :
  with_reflection_table a (with_reflection_table b p)
  = with_reflection_table a p.
Proof. destruct p; reflexivity. Qed.

Lemma assign_reflection_table_effect {MessageT ErrorT Buffer : Type} (i : Z)
      (p q : @FlatbuffersStreamingParser MessageT ErrorT Buffer) :
  assign_reflection_table i p = Some q ->
  exists objects,
    schema_objects p = Some objects /\
    q = with_reflection_table (of_option (reflection.Get objects i)) p.
Proof.
  unfold assign_reflection_table.
  destruct (schema_objects p) as [objects|]; [|discriminate].
  intros E. injection E as <-. exists objects. split; reflexivity.
Qed.

(** Case analysis on the scrutinees of a hypothesis, outermost first. *)
Ltac unfold_cases E :=
  repeat (match type of E with
          | context [match ?x with _ => _ end] => destruct x eqn:?
          end; try discriminate E).

(** Resolve the equations that [unfold_cases] leaves of the keyed-table
    detection. *)
Ltac resolve_assignments :=
  repeat match goal with
         | H : (if ?b then _ else _) = Some _ |- _ => destruct b
         | H : assign_reflection_table _ _ = Some _ |- _ =>
             apply assign_reflection_table_effect in H;
             destruct H as [? [? ->]]
         | H : Some _ = Some ?q |- _ => is_var q; injection H as <-
         end.

Section HandlerFacts.

Context {MessageT ErrorT Buffer : Type}.
Context (env : @Collaborators MessageT ErrorT Buffer).

Local Abbreviation Parser := (@FlatbuffersStreamingParser MessageT ErrorT Buffer).

Lemma same_configuration_refl (p : Parser) : same_configuration p p.
Proof. repeat split. Qed.

Lemma same_configuration_trans (p q r : Parser) :
  same_configuration p q -> same_configuration q r -> same_configuration p r.
Proof.
  unfold same_configuration. intros Hpq Hqr.
  decompose [and] Hpq. decompose [and] Hqr. repeat split; congruence.
Qed.

Lemma check_for_keyed_vector_table_effect (key : string) (p : Parser)
      (found : bool) (q : Parser) :
  check_for_keyed_vector_table key p = Some (found, q) ->
  exists rt, q = with_reflection_table rt p.
Proof.
  unfold check_for_keyed_vector_table. intros E.
  unfold_cases E; resolve_assignments.
  all: injection E as <- <-.
  all: rewrite ?with_reflection_table_twice.
  all: first [eexists; reflexivity | eexists; apply with_reflection_table_same].
Qed.

Lemma same_position_refl (p : Parser) : same_position p p.
Proof. repeat split. Qed.

Lemma same_position_trans (p q r : Parser) :
  same_position p q -> same_position q r -> same_position p r.
Proof.
  unfold same_position. intros [C1 H1] [C2 H2].
  split; [eapply same_configuration_trans; eassumption|].
  decompose [and] H1. decompose [and] H2. repeat split; congruence.
Qed.

Lemma set_null_position (p : Parser) : same_position p (snd (set_null p)).
Proof. destruct p; unfold set_null; simpl; case_split; repeat split. Qed.

Lemma set_bool_position (b : bool) (p : Parser) :
  same_position p (snd (set_bool b p)).
Proof. destruct p; unfold set_bool; simpl; case_split; repeat split. Qed.

Lemma set_int64_position (i : Z) (p : Parser) :
  same_position p (snd (set_int64 i p)).
Proof. destruct p; unfold set_int64; simpl; case_split; repeat split. Qed.

Lemma set_number_position (d : spec_float) (p : Parser) :
  same_position p (snd (set_number env d p)).
Proof. destruct p; unfold set_number; simpl; case_split; repeat split. Qed.

Lemma parse_string_position (s : string) (ok : bool) (p : Parser) :
  same_position p (snd (parse_string s ok p)).
Proof. destruct p; unfold parse_string; simpl; case_split; repeat split. Qed.

Lemma parse_array_start_fields (p : Parser) :
  let q := snd (parse_array_start p) in
  fst (parse_array_start p) = true /\
  same_configuration p q /\ current_path q = current_path p /\
  object_depth q = object_depth p /\
  array_depth q = int_wrap (array_depth p + 1) /\
  is_error_path q = is_error_path p.
Proof. destruct p; unfold parse_array_start; simpl; case_split; repeat split. Qed.

Lemma parse_array_stop_fields (n : nat) (p : Parser) :
  let q := snd (parse_array_stop n p) in
  fst (parse_array_stop n p) = true /\
  same_configuration p q /\ current_path q = current_path p /\
  object_depth q = object_depth p /\
  array_depth q = int_wrap (array_depth p - 1) /\
  is_error_path q = is_error_path p.
Proof. destruct p; unfold parse_array_stop; simpl; case_split; repeat split. Qed.

Lemma parse_object_start_fields (p : Parser) :
  let q := snd (parse_object_start p) in
  fst (parse_object_start p) = true /\
  same_configuration p q /\ current_path q = current_path p /\
  object_depth q = int_wrap (object_depth p + 1) /\
  array_depth q = array_depth p /\
  is_error_path q = is_error_path p.
Proof. destruct p; unfold parse_object_start; simpl; repeat split. Qed.

(** The part of [parse_array_item] before the nested call. *)
Lemma parse_array_item_shape (f : Parser -> list call -> outcome)
      (i : nat) (p : Parser) (h : list call) :
  exists p1, same_position p p1 /\ parse_array_item f i p h = after p1 (f p1 h).
Proof.
  unfold parse_array_item.
  match goal with |- context [after ?x _] => exists x end.
  split; [|reflexivity].
  destruct p; simpl; case_split; repeat split.
Qed.

Lemma parse_object_item_enter_fields (key : string) (p : Parser)
      (l : item_locals) (q : Parser) :
  parse_object_item_enter key p = Some (l, q) ->
  same_configuration p q /\
  current_path q = current_path p ++ [key] /\
  object_depth q = object_depth p /\
  array_depth q = array_depth p /\
  is_error_path q = is_a_subpath (current_path p ++ [key]) (error_path p) /\
  emit_json q =
    (is_a_subpath (current_path p ++ [key]) (error_path p)
     || is_a_subpath (current_path p ++ [key]) (root_path p)) /\
  is_parse_error q = is_parse_error p /\
  reflection_table_prev l = reflection_table p /\
  exists q',
    check_for_keyed_vector_table key p = Some (keyed_vector_table_found l, q').
Proof.
  unfold parse_object_item_enter.
  destruct (check_for_keyed_vector_table key p) as [[found p']|] eqn:Ec;
    [|discriminate].
  destruct (check_for_keyed_vector_table_effect key p found p' Ec) as [rt E].
  subst p'. intros H. injection H as <- <-.
  unfold parse_object_item_push. destruct p. simpl.
  case_split; repeat split; eexists; reflexivity.
Qed.

(** The collaborators are only ever asked more: the log grows at its end. *)
Lemma convert_json_stream_to_flatbuffer_log (p : Parser) (h : list call) :
  exists new, snd (convert_json_stream_to_flatbuffer env p h) = h ++ new.
Proof.
  unfold convert_json_stream_to_flatbuffer.
  case_split;
    repeat rewrite <- app_assoc;
    try (eexists; reflexivity);
    exists []; symmetry; apply app_nil_r.
Qed.

(** The members a dispatch reads. *)
Lemma convert_reads (p p' : Parser) (h : list call) :
  flatbuffers_parser_ready p' = flatbuffers_parser_ready p ->
  is_error_path p' = is_error_path p ->
  ss p' = ss p ->
  callback p' = callback p ->
  errback p' = errback p ->
  convert_json_stream_to_flatbuffer env p' h
  = convert_json_stream_to_flatbuffer env p h.
Proof.
  intros H1 H2 H3 H4 H5. unfold convert_json_stream_to_flatbuffer.
  rewrite H1, H2, H3, H4, H5. reflexivity.
Qed.

Lemma process_item_effect (p : Parser) (h : list call) :
  exists new,
    snd (convert_json_stream_to_flatbuffer env p h) = h ++ new /\
    (process_item env p h = (None, p, h ++ new) /\
     fst (convert_json_stream_to_flatbuffer env p h) = None
     \/ exists ok,
        process_item env p h = (Some ok, with_ss "" p, h ++ new) /\
        fst (convert_json_stream_to_flatbuffer env p h) = Some ok).
Proof.
  destruct (convert_json_stream_to_flatbuffer_log p h) as [new E].
  exists new. split; [exact E|]. unfold process_item.
  destruct (convert_json_stream_to_flatbuffer env p h) as [[ok|] h'];
    simpl in E; subst h'; [right; exists ok|left]; split; reflexivity.
Qed.

Lemma parse_object_item_leave_fields (l : item_locals) (ok : bool)
      (q : Parser) (h : list call) :
  let q' := fst (fst (parse_object_item_leave env l ok q h)) in
  let h' := snd (fst (parse_object_item_leave env l ok q h)) in
  let res := snd (parse_object_item_leave env l ok q h) in
  same_configuration q q' /\
  current_path q' = removelast (current_path q) /\
  object_depth q' = object_depth q /\
  array_depth q' = array_depth q /\
  is_error_path q' = is_error_path q /\
  (exists new, h' = h ++ new) /\
  (res = None \/ res = Some ok).
Proof.
  unfold parse_object_item_leave.
  destruct (is_a_subpath _ _).
  { destruct q; simpl. repeat split; try (exists []; symmetry; apply app_nil_r).
    right; reflexivity. }
  destruct (emit_json _).
  2: { destruct q; simpl. repeat split; try (exists []; symmetry; apply app_nil_r).
       right; reflexivity. }
  match goal with
  | |- context [process_item env ?x h] =>
      destruct (process_item_effect x h) as [new [_ [[E _] | [sent [E _]]]]];
      rewrite E
  end.
  - destruct q; simpl; case_split; repeat split;
      try (exists new; reflexivity); left; reflexivity.
  - destruct q; simpl; case_split; repeat split;
      try (exists new; reflexivity); right; reflexivity.
Qed.

Lemma parse_object_stop_fields (p : Parser) (h : list call) :
  let r := parse_object_stop env p h in
  trace r = [final r] /\
  same_configuration p (final r) /\
  current_path (final r) = current_path p /\
  object_depth (final r) = int_wrap (object_depth p - 1) /\
  array_depth (final r) = array_depth p /\
  is_error_path (final r) = is_error_path p /\
  (exists new, calls r = h ++ new) /\
  (returned r = None \/ returned r = Some true).
Proof.
  unfold parse_object_stop, parse_object_stop_close.
  destruct (emit_json _).
  2: { destruct p; simpl. repeat split; try (exists []; symmetry; apply app_nil_r).
       right; reflexivity. }
  destruct (object_depth _ =? 0).
  2: { destruct p; simpl; case_split; repeat split;
         try (exists []; symmetry; apply app_nil_r); right; reflexivity. }
  match goal with
  | |- context [process_item env ?x h] =>
      destruct (process_item_effect x h) as [new [_ [[E _] | [sent [E _]]]]];
      rewrite E
  end.
  - destruct p; simpl; case_split; repeat split;
      try (exists new; reflexivity); left; reflexivity.
  - destruct p; simpl; case_split; repeat split;
      try (exists new; reflexivity); right; reflexivity.
Qed.

End HandlerFacts.

(** ** The traversal as a whole *)

Section TraversalFacts.

Context {MessageT ErrorT Buffer : Type}.
Context (env : @Collaborators MessageT ErrorT Buffer).

Local Abbreviation Parser := (@FlatbuffersStreamingParser MessageT ErrorT Buffer).

Lemma balanced_done (f : bool * Parser) (p : Parser) (h : list call) :
  same_position p (snd f) -> balanced p h (done f h).
Proof.
  intros [C [Hp _]]. unfold balanced, done; simpl.
  repeat split; try apply C; [exists []; symmetry; apply app_nil_r | intros _; exact Hp].
Qed.

Lemma balanced_step (f : bool * Parser) (p : Parser) (h : list call) :
  same_configuration p (snd f) -> current_path (snd f) = current_path p ->
  balanced p h (done f h).
Proof.
  intros C Hp. unfold balanced, done; simpl.
  repeat split; try apply C; [exists []; symmetry; apply app_nil_r | intros _; exact Hp].
Qed.

Lemma balanced_parse_array_item (f : Parser -> list call -> outcome)
      (i : nat) (p : Parser) (h : list call) :
  (forall q g, balanced q g (f q g)) ->
  balanced p h (parse_array_item f i p h).
Proof.
  intros Hf.
  destruct (parse_array_item_shape f i p h) as [p1 [Hpos E]].
  rewrite E. specialize (Hf p1 h).
  destruct Hpos as [C1 [Hp1 _]], Hf as [C2 [L2 P2]].
  unfold balanced, after; simpl. split; [|split].
  - eapply same_configuration_trans; eassumption.
  - exact L2.
  - intros Hret. rewrite P2 by exact Hret. exact Hp1.
Qed.

Lemma balanced_stay (p : Parser) (h : list call) (ret : option bool) :
  balanced p h {| trace := []; final := p; calls := h; returned := ret |}.
Proof.
  unfold balanced; simpl.
  repeat split; exists []; symmetry; apply app_nil_r.
Qed.

Lemma balanced_and_then (p : Parser) (h : list call) (r : outcome)
      (k : Parser -> list call -> outcome) :
  balanced p h r ->
  (forall q g, balanced q g (k q g)) ->
  balanced p h (and_then r k).
Proof.
  intros Hr Hk. unfold and_then.
  destruct (returned r) as [[|]|] eqn:E; try exact Hr.
  specialize (Hk (final r) (calls r)).
  destruct Hr as [C1 [[n1 L1] P1]], Hk as [C2 [[n2 L2] P2]].
  unfold balanced; simpl. split; [|split].
  - eapply same_configuration_trans; eassumption.
  - exists (n1 ++ n2). rewrite L2, L1, app_assoc. reflexivity.
  - intros Hret. rewrite P2 by exact Hret. apply P1. rewrite E. discriminate.
Qed.

Lemma balanced_parse_object_item (f : Parser -> list call -> outcome)
      (key : string) (p : Parser) (h : list call) :
  (forall q g, balanced q g (f q g)) ->
  balanced p h (parse_object_item env f key p h).
Proof.
  intros Hf. unfold parse_object_item.
  destruct (parse_object_item_enter key p) as [[l p1]|] eqn:Ee.
  2: { apply balanced_stay. }
  pose proof (parse_object_item_enter_fields key p l p1 Ee) as He.
  destruct He as [C1 [Hpath _]].
  specialize (Hf p1 h). destruct Hf as [C2 [[n2 L2] P2]].
  destruct (returned (f p1 h)) as [ok|] eqn:E.
  - pose proof (parse_object_item_leave_fields env l ok (final (f p1 h))
                  (calls (f p1 h))) as Hl.
    destruct (parse_object_item_leave env l ok _ _) as [[q' h'] res].
    simpl in Hl. destruct Hl as [C3 [Hpop [_ [_ [_ [[n3 L3] _]]]]]].
    unfold balanced; simpl. split; [|split].
    + eapply same_configuration_trans; [exact C1|].
      eapply same_configuration_trans; eassumption.
    + exists (n2 ++ n3). rewrite L3, L2, app_assoc. reflexivity.
    + intros _. rewrite Hpop, P2 by discriminate.
      rewrite Hpath. apply removelast_last.
  - unfold balanced, after; simpl. split; [|split].
    + eapply same_configuration_trans; eassumption.
    + exists n2. exact L2.
    + rewrite E. intros Hc. exfalso. apply Hc. reflexivity.
Qed.

Lemma traversal_balanced :
  (forall v p h, balanced p h (_parse env v p h)) /\
  (forall a idx p h, balanced p h (_parse_array env a idx p h)) /\
  (forall o p h, balanced p h (_parse_object env o p h)).
Proof.
  apply json_items_members_ind; simpl; intros.
  - apply balanced_done, set_null_position.
  - apply balanced_done, set_bool_position.
  - apply balanced_done, set_int64_position.
  - apply balanced_done, set_number_position.
  - apply balanced_done, parse_string_position.
  - apply balanced_done, parse_string_position.
  - apply balanced_stay.
  - apply balanced_and_then; [|intros; apply H].
    destruct (parse_array_start_fields p) as [_ [C [Hp _]]].
    unfold balanced, done; simpl.
    repeat split; try apply C; [exists []; symmetry; apply app_nil_r | intros _; exact Hp].
  - apply balanced_and_then; [|intros; apply H].
    destruct (parse_object_start_fields p) as [_ [C [Hp _]]].
    unfold balanced, done; simpl.
    repeat split; try apply C; [exists []; symmetry; apply app_nil_r | intros _; exact Hp].
  - destruct (parse_array_stop_fields idx p) as [_ [C [Hp _]]].
    unfold balanced, done; simpl.
    repeat split; try apply C; [exists []; symmetry; apply app_nil_r | intros _; exact Hp].
  - apply balanced_stay.
  - apply balanced_and_then; [|intros; apply H0].
    destruct (parse_array_item_shape (_parse env v) idx p h) as [p1 [Hpos E]].
    rewrite E. specialize (H p1 h).
    destruct Hpos as [C1 [Hp1 _]], H as [C2 [L2 P2]].
    unfold balanced, after; simpl. split; [|split].
    + eapply same_configuration_trans; eassumption.
    + exact L2.
    + intros Hret. rewrite P2 by exact Hret. exact Hp1.
  - destruct (parse_object_stop_fields env p h) as [_ [C [Hp [_ [_ [_ [L _]]]]]]].
    unfold balanced. split; [exact C|]. split; [exact L|]. intros _; exact Hp.
  - apply balanced_stay.
  - apply balanced_and_then; [|intros; apply H0].
    apply balanced_parse_object_item. intros; apply H.
Qed.

End TraversalFacts.

(** ** Depth and path bookkeeping *)

#[local] Arguments Z.add _ _ : simpl never.
#[local] Arguments Z.sub _ _ : simpl never.
#[local] Arguments Z.max _ _ : simpl never.
#[local] Arguments Z.of_nat _ : simpl never.

Section DepthFacts.

Context {MessageT ErrorT Buffer : Type}.
Context (env : @Collaborators MessageT ErrorT Buffer).

Local Abbreviation Parser := (@FlatbuffersStreamingParser MessageT ErrorT Buffer).

Lemma object_nesting_nonneg :
  (forall v, 0 <= object_nesting v) /\
  (forall a, 0 <= object_nesting_items a) /\
  (forall o, 0 <= object_nesting_members o).
Proof. apply json_items_members_ind; simpl; intros; lia. Qed.

Lemma array_nesting_nonneg :
  (forall v, 0 <= array_nesting v) /\
  (forall a, 0 <= array_nesting_items a) /\
  (forall o, 0 <= array_nesting_members o).
Proof. apply json_items_members_ind; simpl; intros; lia. Qed.

Lemma depth_invariant_moved (p q : Parser) :
  moved 0 0 p q -> depth_invariant p -> depth_invariant q.
Proof.
  unfold moved, depth_invariant. intros [Ho [Ha Hp]] H.
  rewrite Ho, Ha, Hp. lia.
Qed.

Lemma same_position_moved (p q : Parser) : same_position p q -> moved 0 0 p q.
Proof.
  intros [_ [Hp [Ho [Ha _]]]]. unfold moved. rewrite Ho, Ha, Hp.
  repeat split; lia.
Qed.

Lemma keeps_depths_done (f : bool * Parser) (p : Parser) (h : list call) :
  fst f = true -> same_position p (snd f) -> depth_invariant p ->
  keeps_depths 0 0 p (done f h).
Proof.
  intros Hok Hpos Hinv. apply same_position_moved in Hpos.
  unfold keeps_depths, done; simpl. split.
  - constructor; [|constructor]. eapply depth_invariant_moved; eassumption.
  - intros _. rewrite Hok. split; [reflexivity | exact Hpos].
Qed.

Lemma keeps_depths_and_then (d1 d2 e1 e2 : Z) (p : Parser) (r : outcome)
      (k : Parser -> list call -> outcome) :
  keeps_depths d1 e1 p r ->
  (returned r = Some true -> keeps_depths d2 e2 (final r) (k (final r) (calls r))) ->
  keeps_depths (d1 + d2) (e1 + e2) p (and_then r k).
Proof.
  intros [T1 R1] Hk. unfold and_then.
  destruct (returned r) as [[|]|] eqn:E.
  - destruct (Hk eq_refl) as [T2 R2]. unfold keeps_depths; simpl. split.
    + apply Forall_app. split; assumption.
    + intros Hret. destruct (R2 Hret) as [Ht [Ho [Ha Hp]]].
      destruct R1 as [_ [Ho1 [Ha1 Hp1]]]; [discriminate|].
      split; [exact Ht|]. unfold moved. rewrite Ho, Ha, Hp, Ho1, Ha1, Hp1.
      repeat split; lia.
  - destruct R1 as [Hc _]; [discriminate|]. discriminate.
  - unfold keeps_depths. split; [exact T1|]. rewrite E. intros Hc.
    exfalso; apply Hc; reflexivity.
Qed.

Lemma moved_invariant (dobj darr : Z) (p q : Parser) :
  moved dobj darr p q ->
  Z.of_nat (length (current_path p)) <= object_depth p + dobj ->
  0 <= array_depth p + darr ->
  depth_invariant q.
Proof.
  unfold moved, depth_invariant. intros [Ho [Ha Hp]] H1 H2.
  rewrite Ho, Ha, Hp. lia.
Qed.

Lemma keeps_depths_step (dobj darr : Z) (f : bool * Parser) (p : Parser)
      (h : list call) :
  fst f = true -> moved dobj darr p (snd f) -> depth_invariant (snd f) ->
  keeps_depths dobj darr p (done f h).
Proof.
  intros Hok Hm Hinv. unfold keeps_depths, done; simpl. split.
  - constructor; [exact Hinv | constructor].
  - intros _. rewrite Hok. split; [reflexivity | exact Hm].
Qed.

Lemma parse_array_start_moved (p : Parser) :
  depth_invariant p -> array_depth p + 1 <= int_max ->
  moved 0 1 p (snd (parse_array_start p)).
Proof.
  intros [Ho [Ha Hp]] Hb.
  destruct (parse_array_start_fields p) as [_ [_ [Ep [Eo [Ea _]]]]].
  unfold moved. rewrite Ep, Eo, Ea, int_wrap_small; [repeat split; lia|].
  unfold int_min. lia.
Qed.

Lemma parse_array_stop_moved (n : nat) (p : Parser) :
  depth_invariant p -> array_depth p <= int_max ->
  moved 0 (-1) p (snd (parse_array_stop n p)).
Proof.
  intros [Ho [Ha Hp]] Hb.
  destruct (parse_array_stop_fields n p) as [_ [_ [Ep [Eo [Ea _]]]]].
  unfold moved. rewrite Ep, Eo, Ea, int_wrap_small; [repeat split; lia|].
  unfold int_min. lia.
Qed.

Lemma parse_object_start_moved (p : Parser) :
  depth_invariant p -> object_depth p + 1 <= int_max ->
  moved 1 0 p (snd (parse_object_start p)).
Proof.
  intros [Ho [Ha Hp]] Hb.
  destruct (parse_object_start_fields p) as [_ [_ [Ep [Eo [Ea _]]]]].
  unfold moved. rewrite Ep, Eo, Ea, int_wrap_small; [repeat split; lia|].
  unfold int_min. lia.
Qed.

Lemma keeps_depths_object_stop (p : Parser) (h : list call) :
  depth_invariant p ->
  Z.of_nat (length (current_path p)) + 1 <= object_depth p ->
  object_depth p <= int_max ->
  keeps_depths (-1) 0 p (parse_object_stop env p h).
Proof.
  intros [Ho [Ha Hp]] Hlen Hb.
  destruct (parse_object_stop_fields env p h)
    as [Et [_ [Ep [Eo [Ea [_ [_ Hret]]]]]]].
  assert (Hm : moved (-1) 0 p (final (parse_object_stop env p h))).
  { unfold moved. rewrite Ep, Eo, Ea, int_wrap_small; [repeat split; lia|].
    unfold int_min. lia. }
  unfold keeps_depths. rewrite Et. split.
  - constructor; [|constructor].
    apply (moved_invariant (-1) 0 p); [exact Hm | lia | lia].
  - intros Hn. destruct Hret as [Hret | Hret]; [contradiction|].
    split; assumption.
Qed.

Lemma keeps_depths_object_item (f : Parser -> list call -> outcome)
      (key : string) (p : Parser) (h : list call) :
  depth_invariant p ->
  Z.of_nat (length (current_path p)) + 1 <= object_depth p ->
  (forall q g, moved 0 0 p (with_current_path (removelast (current_path q)) q) ->
               depth_invariant q -> keeps_depths 0 0 q (f q g)) ->
  keeps_depths 0 0 p (parse_object_item env f key p h).
Proof.
  intros Hinv Hlen Hf. unfold parse_object_item.
  destruct (parse_object_item_enter key p) as [[l p1]|] eqn:Ee.
  2: { unfold keeps_depths; simpl. split; [constructor | intros Hc; exfalso; apply Hc; reflexivity]. }
  pose proof (parse_object_item_enter_fields key p l p1 Ee) as He.
  destruct He as [_ [Ep [Eo [Ea _]]]].
  assert (Hinv1 : depth_invariant p1).
  { destruct Hinv as [Ho [Ha Hp]]. unfold depth_invariant.
    rewrite Ep, Eo, Ea, length_app. simpl. lia. }
  assert (Hpop : removelast (current_path p1) = current_path p)
    by (rewrite Ep; apply removelast_last).
  assert (Hm1 : moved 0 0 p (with_current_path (removelast (current_path p1)) p1)).
  { unfold moved. destruct p1; simpl in *. rewrite Eo, Ea, Hpop.
    repeat split; lia. }
  specialize (Hf p1 h Hm1 Hinv1). destruct Hf as [T R].
  destruct (returned (f p1 h)) as [ok|] eqn:E.
  - destruct R as [Hok [Fo [Fa Fp]]]; [discriminate|].
    injection Hok as ->.
    pose proof (parse_object_item_leave_fields env l true (final (f p1 h))
                  (calls (f p1 h))) as Hl.
    destruct (parse_object_item_leave env l true _ _) as [[q' h'] res].
    simpl in Hl. destruct Hl as [_ [Lp [Lo [La [_ [_ Hres]]]]]].
    assert (Hm : moved 0 0 p q').
    { unfold moved. rewrite Lp, Lo, La, Fo, Fa, Fp, Eo, Ea, Hpop.
      repeat split; lia. }
    unfold keeps_depths; simpl. split.
    + constructor; [exact Hinv1|]. apply Forall_app. split; [exact T|].
      constructor; [|constructor].
      eapply depth_invariant_moved; eassumption.
    + intros Hn. destruct Hres as [-> | ->]; [contradiction|].
      split; [reflexivity | exact Hm].
  - unfold keeps_depths, after; simpl. split.
    + constructor; assumption.
    + rewrite E. intros Hc. exfalso; apply Hc; reflexivity.
Qed.

Lemma traversal_keeps_depths :
  (forall v p h,
      well_formed v = true -> depth_invariant p ->
      object_depth p + object_nesting v <= int_max ->
      array_depth p + array_nesting v <= int_max ->
      keeps_depths 0 0 p (_parse env v p h)) /\
  (forall a idx p h,
      well_formed_items a = true -> depth_invariant p ->
      1 <= array_depth p ->
      object_depth p + object_nesting_items a <= int_max ->
      array_depth p + array_nesting_items a <= int_max ->
      keeps_depths 0 (-1) p (_parse_array env a idx p h)) /\
  (forall o p h,
      well_formed_members o = true -> depth_invariant p ->
      Z.of_nat (length (current_path p)) + 1 <= object_depth p ->
      object_depth p + object_nesting_members o <= int_max ->
      array_depth p + array_nesting_members o <= int_max ->
      keeps_depths (-1) 0 p (_parse_object env o p h)).
Proof.
  pose proof object_nesting_nonneg as [On [Oa Om]].
  pose proof array_nesting_nonneg as [An [Aa Am]].
  apply json_items_members_ind; simpl; intros.
  - apply keeps_depths_done; [reflexivity | apply set_null_position | assumption].
  - apply keeps_depths_done; [reflexivity | apply set_bool_position | assumption].
  - apply keeps_depths_done; [reflexivity | apply set_int64_position | assumption].
  - apply keeps_depths_done; [reflexivity | apply set_number_position | assumption].
  - apply keeps_depths_done; [reflexivity | apply parse_string_position | assumption].
  - discriminate.
  - discriminate.
  - (* array *)
    specialize (Aa a). specialize (Oa a).
    assert (Hm : moved 0 1 p (snd (parse_array_start p)))
      by (apply parse_array_start_moved; [assumption | lia]).
    assert (Hi : depth_invariant (snd (parse_array_start p))).
    { destruct H1 as [? [? ?]].
      apply (moved_invariant 0 1 p); [exact Hm | lia | lia]. }
    change (keeps_depths (0 + 0) (1 + -1) p
              (and_then (done (parse_array_start p) h) (_parse_array env a 0))).
    apply keeps_depths_and_then.
    + apply keeps_depths_step;
        [apply parse_array_start_fields | exact Hm | exact Hi].
    + intros _. cbn [final calls done].
      destruct Hm as [Ho [Ha Hp]]. destruct H1 as [? [? ?]].
      apply H; [assumption | exact Hi | lia | lia | lia].
  - (* object *)
    specialize (Am o). specialize (Om o).
    assert (Hm : moved 1 0 p (snd (parse_object_start p)))
      by (apply parse_object_start_moved; [assumption | lia]).
    assert (Hi : depth_invariant (snd (parse_object_start p))).
    { destruct H1 as [? [? ?]].
      apply (moved_invariant 1 0 p); [exact Hm | lia | lia]. }
    change (keeps_depths (1 + -1) (0 + 0) p
              (and_then (done (parse_object_start p) h) (_parse_object env o))).
    apply keeps_depths_and_then.
    + apply keeps_depths_step;
        [apply parse_object_start_fields | exact Hm | exact Hi].
    + intros _. cbn [final calls done].
      destruct Hm as [Ho [Ha Hp]]. destruct H1 as [? [? ?]].
      apply H; [assumption | exact Hi | rewrite Hp; lia | lia | lia].
  - (* end of array *)
    assert (Hm : moved 0 (-1) p (snd (parse_array_stop idx p)))
      by (apply parse_array_stop_moved; [assumption | lia]).
    apply keeps_depths_step; [apply parse_array_stop_fields | exact Hm |].
    destruct H0 as [? [? ?]].
    apply (moved_invariant 0 (-1) p); [exact Hm | lia | lia].
  - discriminate.
  - (* array item *)
    apply andb_true_iff in H1. destruct H1 as [Wv Wrest].
    specialize (An v). specialize (On v). specialize (Aa rest). specialize (Oa rest).
    change (keeps_depths (0 + 0) (0 + -1) p
              (and_then (parse_array_item (_parse env v) idx p h)
                        (_parse_array env rest (S idx)))).
    destruct (parse_array_item_shape (_parse env v) idx p h) as [p1 [Hpos E]].
    rewrite E. apply same_position_moved in Hpos.
    assert (Hi : depth_invariant p1)
      by (eapply depth_invariant_moved; eassumption).
    destruct Hpos as [Ho [Ha Hp]].
    assert (Hv : keeps_depths 0 0 p1 (_parse env v p1 h))
      by (apply H; [assumption | exact Hi | lia | lia]).
    assert (Hv' : keeps_depths 0 0 p (after p1 (_parse env v p1 h))).
    { destruct Hv as [T R]. unfold keeps_depths, after; simpl. split.
      - constructor; assumption.
      - intros Hn. destruct (R Hn) as [Hok [Fo [Fa Fp]]].
        split; [exact Hok|]. unfold moved. rewrite Fo, Fa, Fp, Ho, Ha, Hp.
        repeat split; lia. }
    apply keeps_depths_and_then; [exact Hv'|].
    intros Hret. destruct Hv' as [_ R].
    destruct R as [_ [Fo [Fa Fp]]]; [rewrite Hret; discriminate|].
    simpl in *.
    apply H0; [assumption | | lia | lia | lia].
    apply (moved_invariant 0 0 p); [repeat split; assumption | |];
      destruct H2 as [? [? ?]]; lia.
  - (* end of object *)
    apply keeps_depths_object_stop; [assumption | assumption |].
    lia.
  - discriminate.
  - (* object member *)
    apply andb_true_iff in H1. destruct H1 as [Wv Wrest].
    specialize (An v). specialize (On v).
    specialize (Am rest). specialize (Om rest).
    change (keeps_depths (0 + -1) (0 + 0) p
              (and_then (parse_object_item env (_parse env v) key p h)
                        (_parse_object env rest))).
    assert (Hitem : keeps_depths 0 0 p
                      (parse_object_item env (_parse env v) key p h)).
    { apply keeps_depths_object_item; [assumption | assumption |].
      intros q g [Mo [Ma Mp]] Hq. destruct q; simpl in *.
      apply H; [assumption | exact Hq | simpl; lia | simpl; lia]. }
    apply keeps_depths_and_then; [exact Hitem|].
    intros Hret. destruct Hitem as [_ R].
    destruct R as [_ [Fo [Fa Fp]]]; [rewrite Hret; discriminate|].
    apply H0; [assumption | | rewrite Fp; lia | lia | lia].
    apply (moved_invariant 0 0 p); [repeat split; assumption | |];
      destruct H2 as [? [? ?]]; lia.
Qed.

End DepthFacts.

(** ** Which sink is invoked *)

Section SinkFacts.

Context {MessageT ErrorT Buffer : Type}.
Context (env : @Collaborators MessageT ErrorT Buffer).

Local Abbreviation Parser := (@FlatbuffersStreamingParser MessageT ErrorT Buffer).
Local Abbreviation Log := (list (@call MessageT ErrorT Buffer)).

Lemma sinks_app (a b : Log) : sinks (a ++ b) = sinks a ++ sinks b.
Proof.
  induction a as [|c a IH]; [reflexivity|].
  simpl. destruct (sink_kind c); simpl; rewrite IH; reflexivity.
Qed.

(** One dispatch invokes at most one sink, and the error-path flag says
    which. *)
Lemma convert_json_stream_to_flatbuffer_sinks (p : Parser) (h : Log) :
  exists new,
    snd (convert_json_stream_to_flatbuffer env p h) = h ++ new /\
    (sinks new = [] \/ sinks new = [is_error_path p]).
Proof.
  unfold convert_json_stream_to_flatbuffer.
  case_split; repeat rewrite <- app_assoc;
    try (exists []; split; [symmetry; apply app_nil_r | left; reflexivity]);
    eexists; (split; [reflexivity|]); simpl; auto;
    right; destruct (is_error_path p); simpl in *; congruence.
Qed.

Lemma process_item_sinks (p : Parser) (h : Log) :
  is_error_path p = true ->
  exists new,
    snd (process_item env p h) = h ++ new /\ Forall (eq true) (sinks new).
Proof.
  intros Hflag.
  destruct (convert_json_stream_to_flatbuffer_sinks p h) as [new [E Hs]].
  exists new. split.
  - unfold process_item.
    destruct (convert_json_stream_to_flatbuffer env p h) as [[ok|] h'];
      exact E.
  - destruct Hs as [-> | ->]; [constructor|].
    rewrite Hflag. repeat constructor.
Qed.

(** A dispatch whose every step succeeds invokes the sink its flag names. *)
Lemma convert_json_stream_to_flatbuffer_delivers
      (p : Parser) (h : Log) (buf : Buffer) :
  flatbuffers_parser_ready p = true ->
  let kind := is_error_path p in
  let h1 := h ++ [CallSetRootType kind] in
  let h2 := h1 ++ [CallParseJson (c_str (ss p))] in
  let h3 := h2 ++ [CallVerifyBuffer kind buf] in
  SetRootType env h kind = true ->
  parse_json env h1 (c_str (ss p)) = Some buf ->
  VerifyBuffer env h2 kind buf = true ->
  (if kind then errback p <> None else callback p <> None) ->
  snd (convert_json_stream_to_flatbuffer env p h)
  = h3 ++ [if kind then CallErrorSink (UnPackTo_error env buf)
           else CallMessageSink (UnPackTo_message env buf)].
Proof.
  intros Hready kind h1 h2 h3 Hroot Hparse Hverify Hsink.
  unfold convert_json_stream_to_flatbuffer.
  subst h3 h2 h1 kind. rewrite Hready, Hroot, Hparse.
  destruct (is_error_path p); simpl in *; rewrite Hverify.
  - destruct (errback p); [reflexivity | contradiction].
  - destruct (callback p); [reflexivity | contradiction].
Qed.

Lemma process_item_kind (p : Parser) (h : Log) :
  exists new,
    snd (process_item env p h) = h ++ new /\
    (sinks new = [] \/ sinks new = [is_error_path p]).
Proof.
  destruct (convert_json_stream_to_flatbuffer_sinks p h) as [new [E Hs]].
  exists new. split; [|exact Hs]. unfold process_item.
  destruct (convert_json_stream_to_flatbuffer env p h) as [[ok|] h'];
    exact E.
Qed.

Lemma no_dispatch (h : Log) (kind : bool) :
  exists new : Log, h = h ++ new /\ (sinks new = [] \/ sinks new = [kind]).
Proof. exists []. split; [symmetry; apply app_nil_r | left; reflexivity]. Qed.

(** The dispatch at a key exit takes the kind the flag has there. *)
Lemma parse_object_item_leave_kind (l : item_locals) (ok : bool)
      (q : Parser) (h : Log) :
  exists new,
    snd (fst (parse_object_item_leave env l ok q h)) = h ++ new /\
    (sinks new = [] \/ sinks new = [is_error_path q]).
Proof.
  unfold parse_object_item_leave.
  destruct (is_a_subpath _ _); [apply no_dispatch|].
  destruct (emit_json _); [|apply no_dispatch].
  match goal with
  | |- context [process_item env ?x h] =>
      destruct (process_item_kind x h) as [new [E Hs]];
      replace (is_error_path x) with (is_error_path q) in Hs
        by (destruct q; simpl; case_split; reflexivity);
      destruct (process_item env x h) as [[[sent|] q'] h']
  end; simpl in E; subst h'; exists new; split; auto.
Qed.

(** The dispatch at a closing brace takes the kind the flag has there. *)
Lemma parse_object_stop_kind (p : Parser) (h : Log) :
  exists new,
    calls (parse_object_stop env p h) = h ++ new /\
    (sinks new = [] \/ sinks new = [is_error_path p]).
Proof.
  unfold parse_object_stop, parse_object_stop_close.
  destruct (emit_json _); [|apply no_dispatch].
  destruct (object_depth _ =? 0); [|apply no_dispatch].
  match goal with
  | |- context [process_item env ?x h] =>
      destruct (process_item_kind x h) as [new [E Hs]];
      replace (is_error_path x) with (is_error_path p) in Hs
        by (destruct p; simpl; case_split; reflexivity);
      destruct (process_item env x h) as [[[sent|] q'] h']
  end; simpl in E; subst h'; exists new; split; auto.
Qed.

Lemma no_new_calls (h : Log) :
  exists new : Log, h = h ++ new /\ Forall (eq true) (sinks new).
Proof. exists []. split; [symmetry; apply app_nil_r | constructor]. Qed.

Lemma parse_object_item_leave_sinks (l : item_locals) (ok : bool)
      (q : Parser) (h : Log) :
  is_error_path q = true ->
  exists new,
    snd (fst (parse_object_item_leave env l ok q h)) = h ++ new /\
    Forall (eq true) (sinks new).
Proof.
  intros Hflag. unfold parse_object_item_leave.
  destruct (is_a_subpath _ _); [apply no_new_calls|].
  destruct (emit_json _); [|apply no_new_calls].
  match goal with
  | |- context [process_item env ?x h] =>
      destruct (process_item_sinks x h) as [new [E Hs]];
      [destruct q; simpl in *; case_split; exact Hflag|];
      destruct (process_item env x h) as [[[sent|] q'] h']
  end; simpl in E; subst h'; exists new; split; auto.
Qed.

Lemma parse_object_stop_sinks (p : Parser) (h : Log) :
  is_error_path p = true ->
  only_error_sink h (parse_object_stop env p h).
Proof.
  intros Hflag. split.
  - unfold parse_object_stop, parse_object_stop_close.
    destruct (emit_json _); [|apply no_new_calls].
    destruct (object_depth _ =? 0); [|apply no_new_calls].
    match goal with
    | |- context [process_item env ?x h] =>
        destruct (process_item_sinks x h) as [new [E Hs]];
        [destruct p; simpl in *; case_split; exact Hflag|];
        destruct (process_item env x h) as [[[sent|] q'] h']
    end; simpl in E; subst h'; exists new; split; auto.
  - intros _.
    destruct (parse_object_stop_fields env p h) as [_ [_ [_ [_ [_ [F _]]]]]].
    rewrite F. exact Hflag.
Qed.

Lemma only_error_sink_and_then (p : Parser) (h : Log) (r : outcome)
      (k : Parser -> Log -> outcome) :
  on_error_path p -> balanced p h r -> only_error_sink h r ->
  (forall q g, on_error_path q -> only_error_sink g (k q g)) ->
  only_error_sink h (and_then r k).
Proof.
  intros [_ Hmatch] [C [_ Hpath]] [[n1 [L1 S1]] F1] Hk. unfold and_then.
  destruct (returned r) as [[|]|] eqn:E;
    try (split; [exists n1; split; assumption | rewrite E; exact F1]).
  assert (Hq : on_error_path (final r)).
  { split; [apply F1; discriminate|].
    rewrite Hpath by discriminate.
    destruct C as [_ [R _]]. rewrite R. exact Hmatch. }
  destruct (Hk (final r) (calls r) Hq) as [[n2 [L2 S2]] F2].
  split; simpl; [|exact F2].
  exists (n1 ++ n2). split; [rewrite L2, L1, app_assoc; reflexivity|].
  rewrite sinks_app. apply Forall_app. split; assumption.
Qed.

Lemma only_error_sink_done (f : bool * Parser) (p : Parser) (h : Log) :
  on_error_path p -> is_error_path (snd f) = is_error_path p ->
  only_error_sink h (done f h).
Proof.
  intros [Hflag _] E. split; simpl; [apply no_new_calls|].
  intros _. rewrite E. exact Hflag.
Qed.

Lemma only_error_sink_parse_array_item (f : Parser -> Log -> outcome)
      (i : nat) (p : Parser) (h : Log) :
  on_error_path p ->
  (forall q g, on_error_path q -> only_error_sink g (f q g)) ->
  only_error_sink h (parse_array_item f i p h).
Proof.
  intros [Hflag Hmatch] Hf.
  destruct (parse_array_item_shape f i p h) as [p1 [[C [P1 [_ [_ F1]]]] E]].
  rewrite E. apply Hf. split; [rewrite F1; exact Hflag|].
  destruct C as [_ [R _]]. rewrite P1, R. exact Hmatch.
Qed.

Lemma only_error_sink_parse_object_item (f : Parser -> Log -> outcome)
      (key : string) (p : Parser) (h : Log) :
  is_a_subpath (current_path p ++ [key]) (error_path p) = true ->
  (forall q g, balanced q g (f q g)) ->
  (forall q g, on_error_path q -> only_error_sink g (f q g)) ->
  only_error_sink h (parse_object_item env f key p h).
Proof.
  intros Hmatch Hb Hf. unfold parse_object_item.
  destruct (parse_object_item_enter key p) as [[l p1]|] eqn:Ee.
  2: { split; simpl; [apply no_new_calls | intros Hc; exfalso; apply Hc; reflexivity]. }
  pose proof (parse_object_item_enter_fields key p l p1 Ee) as He.
  destruct He as [[_ [R1 _]] [P1 [_ [_ [F1 _]]]]].
  assert (H1 : on_error_path p1).
  { split; [rewrite F1; exact Hmatch | rewrite P1, R1; exact Hmatch]. }
  destruct (Hf p1 h H1) as [[n2 [L2 S2]] F2].
  destruct (returned (f p1 h)) as [ok|] eqn:E.
  - specialize (F2 ltac:(discriminate)).
    pose proof (parse_object_item_leave_sinks l ok (final (f p1 h))
                  (calls (f p1 h)) F2) as [n3 [L3 S3]].
    pose proof (parse_object_item_leave_fields env l ok (final (f p1 h))
                  (calls (f p1 h))) as Hl.
    destruct (parse_object_item_leave env l ok _ _) as [[q' h'] res].
    simpl in Hl, L3. destruct Hl as [_ [_ [_ [_ [F3 _]]]]].
    split; simpl.
    + exists (n2 ++ n3). split; [rewrite L3, L2, app_assoc; reflexivity|].
      rewrite sinks_app. apply Forall_app. split; assumption.
    + intros _. rewrite F3. exact F2.
  - split; simpl; [exists n2; split; assumption|].
    rewrite E. intros Hc. exfalso; apply Hc; reflexivity.
Qed.

Lemma traversal_only_error_sink :
  (forall v p h, on_error_path p -> only_error_sink h (_parse env v p h)) /\
  (forall a idx p h, on_error_path p ->
                     only_error_sink h (_parse_array env a idx p h)) /\
  (forall o p h, on_error_path p ->
                 only_error_sink h (_parse_object env o p h)).
Proof.
  pose proof (traversal_balanced env) as [Bv [Ba Bo]].
  apply json_items_members_ind; simpl; intros.
  - apply (only_error_sink_done _ p); [assumption | apply set_null_position].
  - apply (only_error_sink_done _ p); [assumption | apply set_bool_position].
  - apply (only_error_sink_done _ p); [assumption | apply set_int64_position].
  - apply (only_error_sink_done _ p); [assumption | apply set_number_position].
  - apply (only_error_sink_done _ p); [assumption | apply parse_string_position].
  - apply (only_error_sink_done _ p); [assumption | apply parse_string_position].
  - split; simpl; [apply no_new_calls | intros _; apply H].
  - apply (only_error_sink_and_then p); try assumption.
    + apply balanced_step; apply parse_array_start_fields.
    + apply (only_error_sink_done _ p); [assumption | apply parse_array_start_fields].
    + intros; apply H; assumption.
  - apply (only_error_sink_and_then p); try assumption.
    + apply balanced_step; apply parse_object_start_fields.
    + apply (only_error_sink_done _ p); [assumption | apply parse_object_start_fields].
  - apply (only_error_sink_done _ p); [assumption | apply parse_array_stop_fields].
  - split; simpl; [apply no_new_calls | intros _; apply H].
  - apply (only_error_sink_and_then p); try assumption.
    + apply balanced_parse_array_item. intros; apply Bv.
    + apply only_error_sink_parse_array_item; assumption.
    + intros; apply H0; assumption.
  - apply parse_object_stop_sinks. apply H.
  - split; simpl; [apply no_new_calls | intros _; apply H].
  - apply (only_error_sink_and_then p); try assumption.
    + apply balanced_parse_object_item. intros; apply Bv.
    + apply only_error_sink_parse_object_item;
        [apply is_a_subpath_app; apply H1 | apply Bv | assumption].
Qed.

End SinkFacts.

(** * The specification's claims *)

(** ** Leaving an object key *)

Section LeaveKey.

Context {MessageT ErrorT Buffer : Type}.
Context (env : @Collaborators MessageT ErrorT Buffer).

Local Abbreviation Parser := (@FlatbuffersStreamingParser MessageT ErrorT Buffer).

(** The two ways in which [parse_object_item] ends once its value has been
    parsed. *)
Lemma parse_object_item_leave_cases
        (l : item_locals) (ok : bool) (q : Parser) (h : list call)
        (q' : Parser) (h' : list call) (res : option bool) :
  emit_json q = true ->
  parse_object_item_leave env l ok q h = (q', h', res) ->
  let popped := removelast (current_path q) in
  let text := if keyed_vector_table_found l then ss q else ss q +++ "}" in
  let dispatch := convert_json_stream_to_flatbuffer env (with_ss text q) h in
  current_path q' = popped /\
  if is_a_subpath popped (root_path q) then
    emit_json q' = true /\ ss q' = ss q /\ h' = h /\ res = Some ok
  else
    h' = snd dispatch /\
    match fst dispatch with
    | Some sent =>
        emit_json q' = false /\ ss q' = "" /\
        is_parse_error q' = (is_parse_error q || negb sent) /\
        res = Some ok
    | None => res = None
    end.
Proof.
  intros Hemit Hleave.
  unfold parse_object_item_leave, process_item in Hleave.
  destruct q. simpl in *. subst.
  destruct (keyed_vector_table_found l); simpl in *;
    (destruct (is_a_subpath _ _); simpl in *;
     [inversion Hleave; subst; simpl; repeat split; reflexivity|]);
    match type of Hleave with
    | context [convert_json_stream_to_flatbuffer env ?Y h] =>
        match goal with
        | |- context [convert_json_stream_to_flatbuffer env ?X h] =>
            replace (convert_json_stream_to_flatbuffer env X h)
              with (convert_json_stream_to_flatbuffer env Y h)
              by (apply convert_reads; reflexivity)
        end;
        destruct (convert_json_stream_to_flatbuffer env Y h) as [[sent|] h'']
    end;
    simpl in *; inversion Hleave; subst; simpl; repeat split;
    try reflexivity;
    try (destruct sent; simpl;
         first [reflexivity | symmetry; apply orb_true_r
               | symmetry; apply orb_false_r]).
Qed.

(** C2, as the code has it: when a key is left while capturing is active,
    the key is popped, and capturing ends exactly when the popped path no
    longer matches the message pattern; the error pattern is not consulted.
    Ending means: the closing brace is written (unless the key was rewritten
    as a keyed element), the text is dispatched, and, once the dispatch has
    returned, the buffer is empty, [emit_json] is false and a failed dispatch
    has set the sticky error flag.  While the popped path still matches the
    message pattern nothing is dispatched and capturing goes on. *)
Theorem parse_object_item_leave_capture
        (l : item_locals) (ok : bool) (q : Parser) (h : list call)
        (q' : Parser) (h' : list call) (res : option bool) :
  emit_json q = true ->
  parse_object_item_leave env l ok q h = (q', h', res) ->
  let popped := removelast (current_path q) in
  let text := if keyed_vector_table_found l then ss q else ss q +++ "}" in
  let dispatch := convert_json_stream_to_flatbuffer env (with_ss text q) h in
  current_path q' = popped /\
  if is_a_subpath popped (root_path q) then
    emit_json q' = true /\ ss q' = ss q /\ h' = h /\ res = Some ok
  else
    h' = snd dispatch /\
    match fst dispatch with
    | Some sent =>
        emit_json q' = false /\ ss q' = "" /\
        is_parse_error q' = (is_parse_error q || negb sent) /\
        res = Some ok
    | None => res = None
    end.
Proof. apply parse_object_item_leave_cases. Qed.

End LeaveKey.

(** The run used below: [{"a":{"b":1}}] with message pattern [a, b] and
    error pattern [a].  Its trace holds, at index 3, the state in which the
    key [b] is entered, at index 5 the state in which it is left, and at
    index 6 the state after it has been left. *)
Lemma leave_run_states :
  let r := run loaded doc_a_b ["a"; "b"] accepting_sink ["a"] accepting_sink in
  map (fun p => (current_path p, ss p, emit_json p)) (trace r)
  = [ ([], "", false);
      ([], "", false);
      (["a"], "{" +++ quoted "a" +++ ":", true);
      (["a"], "{" +++ quoted "a" +++ ":", true);
      (["a"; "b"], "{" +++ quoted "a" +++ ":{" +++ quoted "b" +++ ":", true);
      (["a"; "b"], "{" +++ quoted "a" +++ ":{" +++ quoted "b" +++ ":1", true);
      (["a"], "", false);
      (["a"], "", false);
      ([], "", false);
      ([], "", false) ].
Proof. vm_compute. reflexivity. Qed.

(** C2, counterexample: the key [b] of [{"a":{"b":1}}] is left while
    capturing; the popped path [a] still matches the error pattern [a], and
    yet capturing ends: the text is dispatched and [emit_json] is cleared. *)
Lemma leave_ignores_error_pattern :
  let env := agreeable loaded in
  let r := run loaded doc_a_b ["a"; "b"] accepting_sink ["a"] accepting_sink in
  let l := first_key_locals in
  let q := nth 5 (trace r) (final r) in
  let h := snd (engine loaded) in
  let text := "{" +++ quoted "a" +++ ":{" +++ quoted "b" +++ ":1}" in
  parse_object_item_enter "b" (nth 3 (trace r) (final r))
  = Some (l, nth 4 (trace r) (final r)) /\
  emit_json q = true /\
  is_a_subpath (removelast (current_path q)) (error_path q) = true /\
  emit_json (fst (fst (parse_object_item_leave env l true q h))) = false /\
  snd (fst (parse_object_item_leave env l true q h))
  = h ++ [CallSetRootType true; CallParseJson text;
          CallVerifyBuffer true text; CallErrorSink text] /\
  fst (fst (parse_object_item_leave env l true q h))
  = nth 6 (trace r) (final r) /\
  calls r = snd (fst (parse_object_item_leave env l true q h)).
Proof. vm_compute. repeat split; reflexivity. Qed.

(** The amended C2 at the same key, and at the key [a] of [{"a":1}] captured
    under the empty message pattern, where capturing goes on. *)
Lemma parse_object_item_leave_capture_witness :
  (let env := agreeable loaded in
   let r := run loaded doc_a_b ["a"; "b"] accepting_sink ["a"] accepting_sink in
   let l := first_key_locals in
   let q := nth 5 (trace r) (final r) in
   let out := parse_object_item_leave env l true q (snd (engine loaded)) in
   parse_object_item_enter "b" (nth 3 (trace r) (final r))
   = Some (l, nth 4 (trace r) (final r)) /\
   current_path (fst (fst out)) = ["a"] /\
   emit_json (fst (fst out)) = false /\ ss (fst (fst out)) = "" /\
   is_parse_error (fst (fst out)) = false /\ snd out = Some true)
  /\
  (let env := agreeable loaded in
   let r := run loaded doc_a [] accepting_sink ["err"] accepting_sink in
   let l := first_key_locals in
   let q := nth 3 (trace r) (final r) in
   let out := parse_object_item_leave env l true q (snd (engine loaded)) in
   parse_object_item_enter "a" (nth 1 (trace r) (final r))
   = Some (l, nth 2 (trace r) (final r)) /\
   current_path (fst (fst out)) = [] /\
   emit_json (fst (fst out)) = true /\ ss (fst (fst out)) = ss q /\
   snd (fst out) = snd (engine loaded) /\ snd out = Some true).
Proof.
  split.
  - pose proof
      (parse_object_item_leave_capture (agreeable loaded)
         first_key_locals true
         (nth 5 (trace (run loaded doc_a_b ["a"; "b"] accepting_sink
                            ["a"] accepting_sink))
              (final (run loaded doc_a_b ["a"; "b"] accepting_sink
                          ["a"] accepting_sink)))
         (snd (engine loaded)) _ _ _ eq_refl eq_refl) as H.
    vm_compute in H. vm_compute. intuition.
  - pose proof
      (parse_object_item_leave_capture (agreeable loaded)
         first_key_locals true
         (nth 3 (trace (run loaded doc_a [] accepting_sink
                            ["err"] accepting_sink))
              (final (run loaded doc_a [] accepting_sink
                          ["err"] accepting_sink)))
         (snd (engine loaded)) _ _ _ eq_refl eq_refl) as H.
    vm_compute in H. vm_compute. intuition.
Defined.

(** ** Failed dispatches *)

Section FailedDispatch.

Context {MessageT ErrorT Buffer : Type}.
Context (env : @Collaborators MessageT ErrorT Buffer).

Local Abbreviation Parser := (@FlatbuffersStreamingParser MessageT ErrorT Buffer).

(** At a key exit, a dispatch that fails sets the sticky flag. *)
Lemma parse_object_item_leave_failure_is_sticky
      (l : item_locals) (ok : bool) (q : Parser) (h : list call) :
  emit_json q = true ->
  is_a_subpath (removelast (current_path q)) (root_path q) = false ->
  fst (convert_json_stream_to_flatbuffer env
         (with_ss (if keyed_vector_table_found l then ss q else ss q +++ "}") q)
         h) = Some false ->
  is_parse_error (fst (fst (parse_object_item_leave env l ok q h))) = true.
Proof.
  intros Hemit Hpath Hfail.
  destruct (parse_object_item_leave env l ok q h) as [[q' h'] res] eqn:E.
  pose proof (parse_object_item_leave_cases env l ok q h q' h' res Hemit E)
    as [_ H].
  simpl in H. rewrite Hpath, Hfail in H.
  destruct H as [_ [_ [_ [H _]]]]. simpl. rewrite H. apply orb_true_r.
Qed.

(** The sticky flag is never cleared by the traversal. *)
Lemma parse_object_item_leave_keeps_flag
      (l : item_locals) (ok : bool) (q : Parser) (h : list call) :
  is_parse_error q = true ->
  is_parse_error (fst (fst (parse_object_item_leave env l ok q h))) = true.
Proof.
  intros Hflag. unfold parse_object_item_leave, process_item.
  destruct q; simpl in *; subst.
  destruct (is_a_subpath _ _); [reflexivity|].
  destruct emit_json0; [|reflexivity].
  destruct (keyed_vector_table_found l); simpl;
    destruct (convert_json_stream_to_flatbuffer env _ h) as [[sent|] h'];
    simpl; try destruct sent; reflexivity.
Qed.

End FailedDispatch.

(** C3, on the code: the document [{"a":1}] is captured whole under the
    empty message pattern and dispatched at its closing brace, where
    [object_depth] is back at 0.  The message sink refuses the record, so the
    dispatch fails; the sticky flag stays clear and [parse_stream] returns
    [true].  Under the message pattern [a] the same text is dispatched at
    the key exit instead, and there the failure is recorded. *)
Theorem closing_brace_dispatch_failure_unreported :
  let env := agreeable loaded in
  let text := "{" +++ quoted "a" +++ ":1}" in
  let dispatched :=
    [CallSetRootType false; CallParseJson text;
     CallVerifyBuffer false text; CallMessageSink text] in
  let at_brace := run loaded doc_a [] rejecting_sink ["err"] accepting_sink in
  let at_key := run loaded doc_a ["a"] rejecting_sink ["err"] accepting_sink in
  (calls at_brace = snd (engine loaded) ++ dispatched /\
   fst (convert_json_stream_to_flatbuffer env
          (with_ss text (nth 3 (trace at_brace) (final at_brace)))
          (snd (engine loaded))) = Some false /\
   is_parse_error (final at_brace) = false /\
   returned at_brace = Some true)
  /\
  (calls at_key = snd (engine loaded) ++ dispatched /\
   is_parse_error (final at_key) = true /\
   returned at_key = Some false).
Proof. vm_compute. repeat split; reflexivity. Qed.

(** ** The keyed-table rewrite *)

Section KeyedTable.

Context {MessageT ErrorT Buffer : Type}.

Local Abbreviation Parser := (@FlatbuffersStreamingParser MessageT ErrorT Buffer).

Lemma reflection_table_with_reflection_table
      (rt : pointer reflection.Object) (p : Parser) :
  reflection_table (with_reflection_table rt p) = rt.
Proof. destruct p; reflexivity. Qed.

Lemma schema_objects_with_reflection_table
      (rt : pointer reflection.Object) (p : Parser) :
  schema_objects (with_reflection_table rt p) = schema_objects p.
Proof. destruct p; reflexivity. Qed.

Lemma is_Obj_spec (b : reflection.BaseType) :
  is_Obj b = true <-> b = reflection.Obj.
Proof. destruct b; simpl; split; intros H; try reflexivity; discriminate. Qed.

(** When the rewrite applies. *)
Lemma check_for_keyed_vector_table_true (key : string) (p : Parser) :
  (exists q, check_for_keyed_vector_table key p = Some (true, q)) <->
  exists table fields id_field val_field objects value_object,
    reflection_table p = address table /\
    reflection.fields table = Some fields /\
    reflection.LookupByKey "id" fields = Some id_field /\
    reflection.LookupByKey "val" fields = Some val_field /\
    reflection.base_type (reflection.type val_field) = reflection.Obj /\
    schema_objects p = Some objects /\
    reflection.Get objects
      (reflection.index (reflection.type val_field)) = Some value_object.
Proof.
  unfold check_for_keyed_vector_table, assign_reflection_table. split.
  - intros [q E].
    destruct (reflection_table p) as [|table|] eqn:Et; try discriminate.
    destruct (reflection.fields table) as [fields|] eqn:Ef; [|discriminate].
    destruct (reflection.LookupByKey "id" fields) as [id_field|] eqn:Eid;
      destruct (reflection.LookupByKey "val" fields) as [val_field|] eqn:Eval;
      try (unfold_cases E; discriminate).
    destruct (is_Obj _) eqn:Eobj; [|discriminate].
    destruct (schema_objects p) as [objects|] eqn:Eo; [|discriminate].
    rewrite reflection_table_with_reflection_table in E.
    destruct (reflection.Get _ _) as [value_object|] eqn:Eget;
      [|discriminate].
    exists table, fields, id_field, val_field, objects, value_object.
    apply is_Obj_spec in Eobj.
    repeat split; first [assumption | reflexivity].
  - intros [table [fields [id_field [val_field [objects [value_object
             [Et [Ef [Eid [Eval [Eobj [Eo Eget]]]]]]]]]]]].
    rewrite Et, Ef, Eid, Eval.
    apply is_Obj_spec in Eobj. rewrite Eobj, Eo.
    rewrite reflection_table_with_reflection_table, Eget.
    eexists. reflexivity.
Qed.

(** What entering a key writes when the rewrite applies. *)
Lemma parse_object_item_push_keyed
      (key : string) (rt : pointer reflection.Object) (p : Parser) :
  emit_json (snd (parse_object_item_push key rt true p)) = true ->
  ss (snd (parse_object_item_push key rt true p))
  = (if negb (emit_json p) then ss p
     else if negb (needs_close_array p) then ss p +++ "[" else ss p +++ ",")
    +++ "{" +++ dquote +++ "id" +++ dquote +++ ":"
    +++ dquote +++ key +++ dquote +++ ","
    +++ dquote +++ "val" +++ dquote +++ ":".
Proof.
  unfold parse_object_item_push. destruct p. simpl.
  case_split; intros; try discriminate; reflexivity.
Qed.

(** What entering a key writes when the rewrite does not apply. *)
Lemma parse_object_item_push_plain
      (key : string) (rt : pointer reflection.Object) (p : Parser) :
  emit_json (snd (parse_object_item_push key rt false p)) = true ->
  ss (snd (parse_object_item_push key rt false p))
  = (if negb (needs_close_object p) then ss p +++ "{" else ss p +++ ",")
    +++ dquote +++ key +++ dquote +++ ":".
Proof.
  unfold parse_object_item_push. destruct p. simpl.
  case_split; intros; try discriminate; reflexivity.
Qed.

(** The detection moves the reflection cursor and nothing else. *)
Lemma check_for_keyed_vector_table_text (key : string) (p q : Parser)
      (found : bool) :
  check_for_keyed_vector_table key p = Some (found, q) ->
  ss q = ss p /\ emit_json q = emit_json p /\
  needs_close_array q = needs_close_array p /\
  needs_close_object q = needs_close_object p.
Proof.
  intros E. apply check_for_keyed_vector_table_effect in E.
  destruct E as [rt ->]. destruct p. repeat split.
Qed.

(** C4, as the code has it: the keyed-table rewrite applies at an object key
    exactly when the current schema object descriptor has a field named
    [id] and a field named [val] whose base type is an object with a
    resolvable object descriptor.  When it applies and capturing is active,
    the key is written as the opening of the element
    [{"id":"<key>","val":] in place of a plain member [<key>:]; it is
    preceded by an opening bracket only if capturing was already active
    before this key and no array wrapper was pending, by a comma if one was
    pending, and by nothing if capturing begins at this key. *)
Theorem keyed_vector_table_rewrite (key : string) (p : Parser) :
  ((exists q, check_for_keyed_vector_table key p = Some (true, q)) <->
   exists table fields id_field val_field objects value_object,
     reflection_table p = address table /\
     reflection.fields table = Some fields /\
     reflection.LookupByKey "id" fields = Some id_field /\
     reflection.LookupByKey "val" fields = Some val_field /\
     reflection.base_type (reflection.type val_field) = reflection.Obj /\
     schema_objects p = Some objects /\
     reflection.Get objects
       (reflection.index (reflection.type val_field)) = Some value_object)
  /\
  (forall (l : item_locals) (q : Parser),
      parse_object_item_enter key p = Some (l, q) ->
      (exists q',
          check_for_keyed_vector_table key p
          = Some (keyed_vector_table_found l, q')) /\
      (emit_json q = true ->
       ss q
       = if keyed_vector_table_found l then
           (if negb (emit_json p) then ss p
            else if negb (needs_close_array p)
                 then ss p +++ "[" else ss p +++ ",")
           +++ "{" +++ dquote +++ "id" +++ dquote +++ ":"
           +++ dquote +++ key +++ dquote +++ ","
           +++ dquote +++ "val" +++ dquote +++ ":"
         else
           (if negb (needs_close_object p) then ss p +++ "{" else ss p +++ ",")
           +++ dquote +++ key +++ dquote +++ ":")).
Proof.
  split; [apply check_for_keyed_vector_table_true|].
  intros l q. unfold parse_object_item_enter.
  destruct (check_for_keyed_vector_table key p) as [[found p']|] eqn:Ec;
    [|discriminate].
  destruct (check_for_keyed_vector_table_text key p p' found Ec)
    as [Ess [Eemit [Earr Eobj]]].
  set (entered := parse_object_item_push key (reflection_table p) found p').
  intros E.
  assert (E' : entered = (l, q)) by congruence.
  assert (El : l = fst entered) by (rewrite E'; reflexivity).
  assert (Eq : q = snd entered) by (rewrite E'; reflexivity).
  assert (Ef : keyed_vector_table_found (fst entered) = found) by reflexivity.
  subst l q. rewrite Ef. clear E E' Ef.
  split; [exists p'; reflexivity|].
  subst entered. destruct found; intros Hemit.
  - rewrite (parse_object_item_push_keyed key _ p' Hemit).
    rewrite Ess, Eemit, Earr. reflexivity.
  - rewrite (parse_object_item_push_plain key _ p' Hemit).
    rewrite Ess, Eobj. reflexivity.
Qed.

End KeyedTable.

(** C4, counterexample: a table with the fields [identifier] and [value],
    the latter an object with a resolvable descriptor, is not rewritten: its
    key is written as a plain member.  A table with the fields [id] and
    [val] is; and as capturing begins at that key, no array wrapper is
    opened around the element. *)
Lemma identifier_value_fields_not_rewritten :
  let named := fst (engine (Some (schema_with_root identifier_value_table))) in
  let short := fst (engine (Some (schema_with_root id_val_table))) in
  (reflection_table named = address identifier_value_table /\
   option_map (fun objects => reflection.Get objects 1) (schema_objects named)
   = Some (Some value_table) /\
   check_for_keyed_vector_table "k" named = Some (false, named) /\
   option_map (fun entered => ss (snd entered))
              (parse_object_item_enter "k" named)
   = Some ("{" +++ quoted "k" +++ ":"))
  /\
  (reflection_table short = address id_val_table /\
   check_for_keyed_vector_table "k" short
   = Some (true, with_reflection_table (address value_table) short) /\
   emit_json short = false /\
   option_map (fun entered => ss (snd entered))
              (parse_object_item_enter "k" short)
   = Some ("{" +++ quoted "id" +++ ":" +++ quoted "k" +++ ","
               +++ quoted "val" +++ ":")).
Proof. vm_compute. repeat split; reflexivity. Qed.

(** The amended C4 on the table with the fields [id] and [val]. *)
Lemma keyed_vector_table_rewrite_witness :
  let short := fst (engine (Some (schema_with_root id_val_table))) in
  (exists q, check_for_keyed_vector_table "k" short = Some (true, q)) /\
  exists l q,
    parse_object_item_enter "k" short = Some (l, q) /\
    keyed_vector_table_found l = true /\
    ss q = "{" +++ quoted "id" +++ ":" +++ quoted "k" +++ ","
               +++ quoted "val" +++ ":".
Proof.
  pose proof
    (keyed_vector_table_rewrite "k"
       (fst (engine (Some (schema_with_root id_val_table))))) as [Hiff Hss].
  split.
  - apply Hiff.
    exists id_val_table.
    exists [ {| reflection.name := "id";
                reflection.type := scalar_type reflection.String_ |};
             {| reflection.name := "val";
                reflection.type := object_type 1 |} ].
    exists {| reflection.name := "id";
              reflection.type := scalar_type reflection.String_ |}.
    exists {| reflection.name := "val"; reflection.type := object_type 1 |}.
    exists [id_val_table; value_table].
    exists value_table.
    repeat split; reflexivity.
  - eassert (E : parse_object_item_enter "k"
                   (fst (engine (Some (schema_with_root id_val_table))))
                 = Some (_, _)) by (vm_compute; reflexivity).
    destruct (Hss _ _ E) as [_ Htext].
    eexists. eexists. split; [exact E|]. split; [reflexivity|].
    specialize (Htext eq_refl). vm_compute in Htext. vm_compute. exact Htext.
Defined.

(** ** The kind of a dispatch *)

(** C5, as the code has it: a dispatch invokes at most one sink, of the
    kind the error-path flag has when the dispatch is made: the error sink
    if it is set and the message sink otherwise; and it does invoke that
    sink when the engine is ready, the encoder takes the root type and the
    text, the verifier accepts the buffer and the sink is set.  The flag is
    assigned at an object key, from the error pattern alone and whatever the
    message pattern says of the key; no other handler changes it, so that
    the dispatch at a key exit and the one at a closing brace take the kind
    of the key entered last.  When the error pattern matches at a key, every
    sink invoked until that key has been left, its own dispatch included,
    is the error sink. *)
Theorem dispatch_kind
        {MessageT ErrorT Buffer : Type}
        (env : @Collaborators MessageT ErrorT Buffer) :
  (forall (p : FlatbuffersStreamingParser) (h : list call),
      exists new,
        snd (convert_json_stream_to_flatbuffer env p h) = h ++ new /\
        (sinks new = [] \/ sinks new = [is_error_path p]))
  /\
  (forall (p : FlatbuffersStreamingParser) (h : list call) (buf : Buffer),
      flatbuffers_parser_ready p = true ->
      let kind := is_error_path p in
      let h1 := h ++ [CallSetRootType kind] in
      let h2 := h1 ++ [CallParseJson (c_str (ss p))] in
      let h3 := h2 ++ [CallVerifyBuffer kind buf] in
      SetRootType env h kind = true ->
      parse_json env h1 (c_str (ss p)) = Some buf ->
      VerifyBuffer env h2 kind buf = true ->
      (if kind then errback p <> None else callback p <> None) ->
      snd (convert_json_stream_to_flatbuffer env p h)
      = h3 ++ [if kind then CallErrorSink (UnPackTo_error env buf)
               else CallMessageSink (UnPackTo_message env buf)])
  /\
  (forall (key : string) (p : @FlatbuffersStreamingParser MessageT ErrorT Buffer)
          (l : item_locals) (q : FlatbuffersStreamingParser),
      parse_object_item_enter key p = Some (l, q) ->
      is_error_path q
      = is_a_subpath (current_path p ++ [key]) (error_path p))
  /\
  (forall p : @FlatbuffersStreamingParser MessageT ErrorT Buffer,
      is_error_path (snd (set_null p)) = is_error_path p /\
      (forall b, is_error_path (snd (set_bool b p)) = is_error_path p) /\
      (forall i, is_error_path (snd (set_int64 i p)) = is_error_path p) /\
      (forall d, is_error_path (snd (set_number env d p)) = is_error_path p) /\
      (forall s ok,
          is_error_path (snd (parse_string s ok p)) = is_error_path p) /\
      is_error_path (snd (parse_array_start p)) = is_error_path p /\
      (forall n, is_error_path (snd (parse_array_stop n p)) = is_error_path p) /\
      is_error_path (snd (parse_object_start p)) = is_error_path p /\
      (forall f i h,
          exists p1,
            is_error_path p1 = is_error_path p /\
            parse_array_item f i p h = after p1 (f p1 h)))
  /\
  (forall (l : item_locals) (ok : bool) (q : FlatbuffersStreamingParser)
          (h : list call),
      is_error_path (fst (fst (parse_object_item_leave env l ok q h)))
      = is_error_path q /\
      exists new,
        snd (fst (parse_object_item_leave env l ok q h)) = h ++ new /\
        (sinks new = [] \/ sinks new = [is_error_path q]))
  /\
  (forall (p : FlatbuffersStreamingParser) (h : list call),
      is_error_path (final (parse_object_stop env p h)) = is_error_path p /\
      exists new,
        calls (parse_object_stop env p h) = h ++ new /\
        (sinks new = [] \/ sinks new = [is_error_path p]))
  /\
  (forall (key : string) (v : json) (p : FlatbuffersStreamingParser)
          (h : list call),
      is_a_subpath (current_path p ++ [key]) (error_path p) = true ->
      exists new,
        calls (parse_object_item env (_parse env v) key p h) = h ++ new /\
        Forall (eq true) (sinks new)).
Proof.
  split; [|split; [|split; [|split; [|split; [|split]]]]].
  - intros p h. apply convert_json_stream_to_flatbuffer_sinks.
  - intros p h buf. apply convert_json_stream_to_flatbuffer_delivers.
  - intros key p l q E. apply (parse_object_item_enter_fields key p l q E).
  - intros p. repeat split; intros.
    + apply set_null_position.
    + apply set_bool_position.
    + apply set_int64_position.
    + apply set_number_position.
    + apply parse_string_position.
    + apply parse_array_start_fields.
    + apply parse_array_stop_fields.
    + apply parse_object_start_fields.
    + destruct (parse_array_item_shape f i p h) as [p1 [Hpos E]].
      exists p1. split; [apply Hpos | exact E].
  - intros l ok q h. split.
    + apply (parse_object_item_leave_fields env l ok q h).
    + apply parse_object_item_leave_kind.
  - intros p h. split.
    + apply (parse_object_stop_fields env p h).
    + apply parse_object_stop_kind.
  - intros key v p h Hmatch.
    pose proof (traversal_balanced env) as [Bv _].
    pose proof (traversal_only_error_sink env) as [Sv _].
    apply (only_error_sink_parse_object_item env (_parse env v) key p h);
      [exact Hmatch | apply Bv | apply Sv].
Qed.

(** C5, counterexample: in [{"err":2,"a":1}], captured whole under the
    empty message pattern, the key [err] matches both the error pattern
    [err] and the message pattern.  The key [a] that follows clears the
    flag, and the document, dispatched at its closing brace, goes to the
    message sink. *)
Lemma both_patterns_match_message_dispatch :
  let env := agreeable loaded in
  let r := run loaded doc_err_a [] accepting_sink ["err"] accepting_sink in
  let text := "{" +++ quoted "err" +++ ":2," +++ quoted "a" +++ ":1}" in
  is_a_subpath ["err"] ["err"] = true /\
  is_a_subpath ["err"] [] = true /\
  map (fun p => (current_path p, is_error_path p)) (trace r)
  = [ ([], false); ([], false);
      (["err"], true); (["err"], true); ([], true);
      (["a"], false); (["a"], false); ([], false);
      ([], false) ] /\
  calls r
  = snd (engine loaded)
    ++ [CallSetRootType false; CallParseJson text;
        CallVerifyBuffer false text; CallMessageSink text] /\
  sinks (calls r) = [false] /\
  returned r = Some true.
Proof. vm_compute. repeat split; reflexivity. Qed.

(** The amended C5 at the key [a] of [{"a":1}], with both patterns equal
    to [a]: the subtree is dispatched when [a] is left, to the error
    sink. *)
Lemma dispatch_kind_witness :
  let env := agreeable loaded in
  let p :=
    snd (parse_object_start
           (with_errback accepting_sink
              (with_error_path ["a"]
                 (with_callback accepting_sink
                    (with_root_path ["a"] (clear (fst (engine loaded)))))))) in
  let h := snd (engine loaded) in
  let text := "{" +++ quoted "a" +++ ":1}" in
  is_a_subpath (current_path p ++ ["a"]) (error_path p) = true /\
  is_a_subpath (current_path p ++ ["a"]) (root_path p) = true /\
  (exists new,
      calls (parse_object_item env (_parse env (JInt64 1)) "a" p h) = h ++ new /\
      Forall (eq true) (sinks new)) /\
  calls (parse_object_item env (_parse env (JInt64 1)) "a" p h)
  = h ++ [CallSetRootType true; CallParseJson text;
          CallVerifyBuffer true text; CallErrorSink text] /\
  snd (convert_json_stream_to_flatbuffer env
         (with_is_error_path true (with_ss text p)) h)
  = h ++ [CallSetRootType true; CallParseJson text;
          CallVerifyBuffer true text; CallErrorSink text].
Proof.
  pose proof (dispatch_kind (agreeable loaded))
    as [_ [Hdelivers [_ [_ [_ [_ Hkey]]]]]].
  split; [reflexivity|]. split; [reflexivity|]. split; [|split].
  - apply Hkey. reflexivity.
  - vm_compute. reflexivity.
  - rewrite (Hdelivers _ _ ("{" +++ quoted "a" +++ ":1}"));
      first [reflexivity | discriminate].
Defined.

(** ** Depth consistency *)

(** C7: while a well-formed document is parsed, the object depth and the
    array depth are never negative and the current path is never longer
    than the object depth; once the document has been parsed, both depths
    are 0 and the current path is empty.  The counters are [int]s: the
    document nests objects, and arrays, less than [2^31] deep. *)
Theorem depth_consistency
        {MessageT ErrorT Buffer : Type}
        (env : @Collaborators MessageT ErrorT Buffer)
        (doc : json) (root : list string)
        (callback : option (list call -> MessageT -> bool))
        (error : list string)
        (errback : option (list call -> ErrorT -> bool))
        (p : FlatbuffersStreamingParser) (h : list call) :
  well_formed doc = true ->
  object_nesting doc <= int_max ->
  array_nesting doc <= int_max ->
  let r := parse_stream env doc root callback error errback p h in
  Forall depth_invariant (trace r) /\
  (returned r <> None ->
   object_depth (final r) = 0 /\ array_depth (final r) = 0 /\
   current_path (final r) = []).
Proof.
  intros Hwf Hobj Harr. unfold parse_stream.
  set (p0 := with_errback errback
               (with_error_path error
                  (with_callback callback (with_root_path root (clear p))))).
  assert (H0 : object_depth p0 = 0 /\ array_depth p0 = 0 /\
               current_path p0 = [])
    by (destruct p; repeat split).
  destruct H0 as [Ho [Ha Hp]].
  assert (Hinv : depth_invariant p0).
  { unfold depth_invariant. rewrite Ho, Ha, Hp. simpl. lia. }
  pose proof (traversal_keeps_depths env) as [Hv _].
  destruct (Hv doc p0 h Hwf Hinv) as [T R];
    [rewrite Ho; lia | rewrite Ha; lia |].
  simpl. split.
  - constructor; assumption.
  - intros Hret.
    destruct (returned (_parse env doc p0 h)) eqn:E;
      [|exfalso; apply Hret; reflexivity].
    destruct R as [_ [Fo [Fa Fp]]]; [discriminate|].
    rewrite Fo, Fa, Fp, Ho, Ha, Hp. repeat split.
Qed.

(** C7 on [{"a":[{"b":null},true],"c":"s"}], captured under the pattern
    [a]. *)
Lemma depth_consistency_witness :
  let r := run loaded doc_nested ["a"] accepting_sink ["err"] accepting_sink in
  Forall depth_invariant (trace r) /\
  object_depth (final r) = 0 /\ array_depth (final r) = 0 /\
  current_path (final r) = [].
Proof.
  pose proof
    (depth_consistency (agreeable loaded) doc_nested ["a"] accepting_sink
       ["err"] accepting_sink (fst (engine loaded)) (snd (engine loaded))
       eq_refl ltac:(vm_compute; discriminate) ltac:(vm_compute; discriminate))
    as [Htrace Hfinal].
  split; [exact Htrace|].
  apply Hfinal. vm_compute. discriminate.
Defined.

(** ** Numbers *)

Lemma append_cancel_l (a x y : string) : a +++ x = a +++ y -> x = y.
Proof.
  induction a as [|c a IH]; simpl; intros H; [exact H|].
  injection H as H. apply IH. exact H.
Qed.

Lemma Z_to_int_proper (z : Z) :
  Z.to_int z <> Decimal.Pos Decimal.Nil /\ Z.to_int z <> Decimal.Neg Decimal.Nil.
Proof.
  destruct z as [|q|q]; simpl; split; intros H; try discriminate;
    injection H as H; apply (DecimalPos.Unsigned.to_uint_nonnil q H).
Qed.

Lemma string_of_Z_inj (a b : Z) : string_of_Z a = string_of_Z b -> a = b.
Proof.
  unfold string_of_Z. intros H.
  apply DecimalZ.to_int_inj.
  destruct (Z_to_int_proper a) as [Ha1 Ha2], (Z_to_int_proper b) as [Hb1 Hb2].
  pose proof (NilZero.isi (Z.to_int a) Ha1 Ha2) as Ia.
  pose proof (NilZero.isi (Z.to_int b) Hb1 Hb2) as Ib.
  rewrite H in Ia. rewrite Ia in Ib. injection Ib as Ib. exact Ib.
Qed.

(** The integer part lies between zero and the value: it discards the
    fraction and never rounds away from zero. *)
Lemma integer_part_toward_zero (s : bool) (m : positive) (e z : Z) :
  integer_part (S754_finite s m e) = Some z ->
  (if s then z <= 0 else 0 <= z) /\
  if 0 <=? e then Z.abs z = Z.pos m * 2 ^ e
  else Z.abs z * 2 ^ (- e) <= Z.pos m < (Z.abs z + 1) * 2 ^ (- e).
Proof.
  intros H.
  assert (Hz : z = if s
                   then - (if 0 <=? e then Z.pos m * 2 ^ e
                           else Z.pos m / 2 ^ (- e))
                   else (if 0 <=? e then Z.pos m * 2 ^ e
                         else Z.pos m / 2 ^ (- e))).
  { change (integer_part (S754_finite s m e))
      with (Some (if s
                  then - (if 0 <=? e then Z.pos m * 2 ^ e
                          else Z.pos m / 2 ^ (- e))
                  else (if 0 <=? e then Z.pos m * 2 ^ e
                        else Z.pos m / 2 ^ (- e)))) in H.
    congruence. }
  clear H. destruct (0 <=? e) eqn:E.
  - apply Z.leb_le in E.
    assert (Hk : 0 < 2 ^ e) by (apply Z.pow_pos_nonneg; lia).
    assert (Hq : 0 <= Z.pos m * 2 ^ e) by (apply Z.mul_nonneg_nonneg; lia).
    destruct s; subst z; split; lia.
  - apply Z.leb_gt in E.
    assert (Hk : 0 < 2 ^ (- e)) by (apply Z.pow_pos_nonneg; lia).
    pose proof (Z.div_pos (Z.pos m) (2 ^ (- e)) ltac:(lia) Hk) as Hq.
    pose proof (Z.mul_div_le (Z.pos m) (2 ^ (- e)) Hk) as Hlo.
    pose proof (Z.mul_succ_div_gt (Z.pos m) (2 ^ (- e)) Hk) as Hhi.
    destruct s; subst z; split; try lia;
      rewrite ?Z.abs_opp, Z.abs_eq by exact Hq; lia.
Qed.

Section Numbers.

Context {MessageT ErrorT Buffer : Type}.
Context (env : @Collaborators MessageT ErrorT Buffer).

Local Abbreviation Parser := (@FlatbuffersStreamingParser MessageT ErrorT Buffer).

Lemma set_number_emits (d : spec_float) (p : Parser) :
  emit_json p = true ->
  ss (snd (set_number env d p))
  = ss p +++ string_of_Z (double_to_int (unrepresentable env) d).
Proof. intros H. unfold set_number. rewrite H. destruct p; reflexivity. Qed.

(** C8, as the code has it: a floating-point value received while
    capturing is converted to [int]; when its integer part fits in an [int],
    that integer part, obtained by discarding the fraction, is what is
    appended, so 3.9 is written as 3 (and -3.9 as -3).  An integer received
    through the integer event is appended unchanged. *)
Theorem set_number_truncates :
  (forall (d : spec_float) (z : Z) (p : Parser),
      emit_json p = true ->
      integer_part d = Some z ->
      in_int_range z = true ->
      ss (snd (set_number env d p)) = ss p +++ string_of_Z z)
  /\
  (forall (s : bool) (m : positive) (e z : Z),
      integer_part (S754_finite s m e) = Some z ->
      (if s then z <= 0 else 0 <= z) /\
      if 0 <=? e then Z.abs z = Z.pos m * 2 ^ e
      else Z.abs z * 2 ^ (- e) <= Z.pos m < (Z.abs z + 1) * 2 ^ (- e))
  /\
  (forall (i : Z) (p : Parser),
      emit_json p = true ->
      ss (snd (set_int64 i p)) = ss p +++ string_of_Z i)
  /\
  (integer_part double_3_9 = Some 3 /\ string_of_Z 3 = "3" /\
   integer_part double_minus_3_9 = Some (-3) /\ string_of_Z (-3) = "-3").
Proof.
  split; [|split; [|split]].
  - intros d z p Hemit Hpart Hrange.
    rewrite set_number_emits by exact Hemit.
    unfold double_to_int. rewrite Hpart, Hrange. reflexivity.
  - apply integer_part_toward_zero.
  - intros i p Hemit. unfold set_int64. rewrite Hemit.
    destruct p; reflexivity.
  - vm_compute. repeat split; reflexivity.
Qed.

(** Beyond the range of [int] the integer part is never what is written,
    whatever the platform makes of the conversion. *)
Lemma set_number_unrepresentable (d : spec_float) (z : Z) (p : Parser) :
  emit_json p = true ->
  integer_part d = Some z ->
  in_int_range z = false ->
  ss (snd (set_number env d p)) <> ss p +++ string_of_Z z.
Proof.
  intros Hemit Hpart Hrange Heq.
  rewrite set_number_emits in Heq by exact Hemit.
  apply append_cancel_l, string_of_Z_inj in Heq.
  unfold double_to_int in Heq. rewrite Hpart, Hrange in Heq.
  pose proof (int_wrap_range (unrepresentable env d)) as Hw.
  rewrite Heq in Hw. apply in_int_range_spec in Hw. congruence.
Qed.

End Numbers.

(** The example doubles are binary64 values. *)
Lemma example_doubles_valid :
  valid_binary 53 1024 double_3_9 = true /\
  valid_binary 53 1024 double_minus_3_9 = true /\
  valid_binary 53 1024 double_1e10 = true.
Proof. vm_compute. repeat split; reflexivity. Qed.

(** C8, counterexample: the value 1e10 is received while capturing.  Its
    integer part is 10000000000, which no [int] holds: here the text
    written is -2147483648, and on no platform is it 10000000000. *)
Lemma set_number_out_of_int_range :
  let p := with_emit_json true (fst (engine loaded)) in
  integer_part double_1e10 = Some 10000000000 /\
  string_of_Z 10000000000 = "10000000000" /\
  ss (snd (set_number (agreeable loaded) double_1e10 p))
  = ss p +++ "-2147483648" /\
  (forall (env : @Collaborators string string string),
      ss (snd (set_number env double_1e10 p)) <> ss p +++ "10000000000").
Proof.
  split; [reflexivity|]. split; [reflexivity|]. split; [reflexivity|].
  intros env.
  apply (set_number_unrepresentable env double_1e10 10000000000);
    reflexivity.
Qed.

(** The amended C8 on 3.9 and on the integer 42. *)
Lemma set_number_truncates_witness :
  let p := with_emit_json true (fst (engine loaded)) in
  ss (snd (set_number (agreeable loaded) double_3_9 p)) = "3" /\
  ss (snd (set_int64 42 p)) = "42".
Proof.
  pose proof (@set_number_truncates string string string (agreeable loaded))
    as [Hnum [_ [Hint _]]].
  split.
  - apply (Hnum double_3_9 3 (with_emit_json true (fst (engine loaded))));
      reflexivity.
  - apply (Hint 42 (with_emit_json true (fst (engine loaded)))). reflexivity.
Defined.

(** ** [clear] *)

Section ClearFacts.

Context {MessageT ErrorT Buffer : Type}.
Context (env : @Collaborators MessageT ErrorT Buffer).

Local Abbreviation Parser := (@FlatbuffersStreamingParser MessageT ErrorT Buffer).

Lemma clear_idempotent (p : Parser) : clear (clear p) = clear p.
Proof. destruct p; reflexivity. Qed.

Lemma clear_with_parser_opts (o : IDLOptions) (p : Parser) :
  clear p = p -> clear (with_parser_opts o p) = with_parser_opts o p.
Proof. intros H. rewrite <- H at 2. destruct p; reflexivity. Qed.

Lemma clear_with_flatbuffers_parser_ready (b : bool) (p : Parser) :
  clear p = p ->
  clear (with_flatbuffers_parser_ready b p) = with_flatbuffers_parser_ready b p.
Proof. intros H. rewrite <- H at 2. destruct p; reflexivity. Qed.

Lemma clear_with_schema (sch : pointer reflection.Schema) (p : Parser) :
  clear p = p -> clear (with_schema sch p) = with_schema sch p.
Proof. intros H. rewrite <- H at 2. destruct p; reflexivity. Qed.

Lemma clear_with_reflection_table (rt : pointer reflection.Object) (p : Parser) :
  clear p = p -> clear (with_reflection_table rt p) = with_reflection_table rt p.
Proof. intros H. rewrite <- H at 2. destruct p; reflexivity. Qed.

(** Loading the binary schema assigns [schema] and nothing else. *)
Lemma parse_flatbuffers_binary_schema_effect (buf : string) (p : Parser)
      (h : list call) :
  snd (fst (parse_flatbuffers_binary_schema env buf p h)) = p \/
  snd (fst (parse_flatbuffers_binary_schema env buf p h))
  = with_schema (of_option (GetSchema env buf)) p.
Proof.
  unfold parse_flatbuffers_binary_schema.
  destruct (negb (is_empty buf)); [|left; reflexivity].
  destruct (last_char buf) as [eof|]; [|left; reflexivity].
  destruct (Ascii.eqb eof nul); [|left; reflexivity].
  destruct (VerifySchemaBuffer env h buf); [|left; reflexivity].
  destruct (schema _); right; reflexivity.
Qed.

Lemma ctor_is_clear (text_schema binary_schema : string) :
  clear (fst (FlatbuffersStreamingParser_ctor env text_schema binary_schema))
  = fst (FlatbuffersStreamingParser_ctor env text_schema binary_schema).
Proof.
  unfold FlatbuffersStreamingParser_ctor.
  destruct (parse_flatbuffers_text_schema env text_schema []) as [ok h].
  match goal with
  | |- context [parse_flatbuffers_binary_schema env binary_schema ?x h] =>
      assert (H1 : clear x = x)
        by (destruct ok;
            repeat first [ apply clear_with_flatbuffers_parser_ready
                         | apply clear_with_parser_opts
                         | apply clear_idempotent ]);
      pose proof (parse_flatbuffers_binary_schema_effect binary_schema x h)
        as H2;
      destruct (parse_flatbuffers_binary_schema env binary_schema x h)
        as [[ok2 p2] h2]
  end.
  simpl in H2.
  assert (H3 : clear p2 = p2)
    by (destruct H2 as [-> | ->]; [exact H1 | apply clear_with_schema, H1]).
  simpl. destruct ok2; [|exact H3].
  destruct (schema p2); [exact H3 | apply clear_with_reflection_table | ];
    exact H3.
Qed.

End ClearFacts.

(** C9: [clear] puts every parsing and output member back to its initial
    value, the value [default_initialised] gives it, and leaves the schema,
    the ready flag and the rest of the configuration alone.  It is
    idempotent, and it changes nothing on an engine fresh from the
    constructor.  [parse_stream] begins with it: the traversal starts from
    the cleared engine with the patterns and sinks of the call installed. *)
Theorem clear_resets
        {MessageT ErrorT Buffer : Type}
        (env : @Collaborators MessageT ErrorT Buffer) :
  (forall p : @FlatbuffersStreamingParser MessageT ErrorT Buffer,
      (is_parse_error (clear p) = false /\
       is_error_path (clear p) = false /\
       object_depth (clear p) = 0 /\ array_depth (clear p) = 0 /\
       object_idx (clear p) = 0 /\ array_idx (clear p) = 0 /\
       current_path (clear p) = [] /\ current_key (clear p) = "" /\
       ss (clear p) = "" /\ emit_json (clear p) = false /\
       needs_close_array (clear p) = false /\
       needs_close_object (clear p) = false) /\
      (schema (clear p) = schema p /\
       reflection_table (clear p) = reflection_table p /\
       flatbuffers_parser_ready (clear p) = flatbuffers_parser_ready p /\
       parser_opts (clear p) = parser_opts p /\
       root_path (clear p) = root_path p /\ callback (clear p) = callback p /\
       error_path (clear p) = error_path p /\ errback (clear p) = errback p) /\
      clear p
      = with_errback (errback p)
          (with_error_path (error_path p)
             (with_callback (callback p)
                (with_root_path (root_path p)
                   (with_parser_opts (parser_opts p)
                      (with_flatbuffers_parser_ready (flatbuffers_parser_ready p)
                         (with_reflection_table (reflection_table p)
                            (with_schema (schema p)
                               (default_initialised env)))))))))
  /\
  (forall p : @FlatbuffersStreamingParser MessageT ErrorT Buffer,
      clear (clear p) = clear p)
  /\
  (forall text_schema binary_schema : string,
      clear (fst (FlatbuffersStreamingParser_ctor env text_schema binary_schema))
      = fst (FlatbuffersStreamingParser_ctor env text_schema binary_schema))
  /\
  (forall doc root callback error errback
          (p : FlatbuffersStreamingParser) (h : list call),
      parse_stream env doc root callback error errback p h
      = parse_stream env doc root callback error errback (clear p) h /\
      hd_error (trace (parse_stream env doc root callback error errback p h))
      = Some (with_errback errback
                (with_error_path error
                   (with_callback callback
                      (with_root_path root (clear p))))) /\
      parse_stream env doc root callback error errback p h
      = let start :=
          with_errback errback
            (with_error_path error
               (with_callback callback (with_root_path root (clear p)))) in
        let r := _parse env doc start h in
        {| trace := start :: trace r; final := final r; calls := calls r;
           returned :=
             match returned r with
             | Some ok => Some (ok && negb (is_parse_error (final r)))
             | None => None
             end |}).
Proof.
  split; [|split; [|split]].
  - intros p. destruct p. repeat split.
  - intros p. destruct p. reflexivity.
  - apply ctor_is_clear.
  - intros. unfold parse_stream. destruct p. repeat split.
Qed.

(** ** Closing an object *)

Section ClosingBrace.

Context {MessageT ErrorT Buffer : Type}.
Context (env : @Collaborators MessageT ErrorT Buffer).

Local Abbreviation Parser := (@FlatbuffersStreamingParser MessageT ErrorT Buffer).

Lemma parse_object_stop_close_text (p : Parser) :
  ss (parse_object_stop_close p)
  = if needs_close_array p then ss p +++ "]"
    else if needs_close_object p then
           match root_path p with
           | [] => ss p +++ "}"
           | _ :: _ => (ss p +++ "}") +++ "}"
           end
         else ss p +++ "}".
Proof.
  unfold parse_object_stop_close. destruct p; simpl.
  destruct needs_close_array0, needs_close_object0, root_path0; reflexivity.
Qed.

(** The text of [parse_object_stop]: what it leaves in the buffer, or, at
    object depth 0, what it dispatches. *)
Lemma parse_object_stop_text (p : Parser) (h : list call) :
  emit_json p = true ->
  if int_wrap (object_depth p - 1) =? 0 then
    calls (parse_object_stop env p h)
    = snd (convert_json_stream_to_flatbuffer env
             (with_ss (ss (parse_object_stop_close p)) p) h)
  else
    ss (final (parse_object_stop env p h)) = ss (parse_object_stop_close p) /\
    calls (parse_object_stop env p h) = h.
Proof.
  intros Hemit. unfold parse_object_stop, process_item.
  destruct p; simpl in *; subst.
  unfold parse_object_stop_close; simpl.
  destruct needs_close_array0, needs_close_object0, root_path0; simpl;
    destruct (int_wrap (object_depth0 - 1) =? 0); simpl;
    try (split; reflexivity);
    match goal with
    | |- context [convert_json_stream_to_flatbuffer env ?X h] =>
        match goal with
        | |- _ = snd (convert_json_stream_to_flatbuffer env ?Y h) =>
            replace (convert_json_stream_to_flatbuffer env Y h)
              with (convert_json_stream_to_flatbuffer env X h)
              by (apply convert_reads; reflexivity)
        end;
        destruct (convert_json_stream_to_flatbuffer env X h) as [[sent|] h'];
        reflexivity
    end.
Qed.

(** C10, as the code has it: when an object ends while emitting, a pending
    array wrapper is closed first, with a single closing bracket and no
    brace, whether or not an object wrapper is pending too.  Without a
    pending array wrapper, a pending object wrapper is closed with one
    closing brace if the message pattern is empty and with two if it is not;
    with neither wrapper pending a single closing brace is written. *)
Theorem parse_object_stop_closing (p : Parser) (h : list call) :
  let closed :=
    if needs_close_array p then ss p +++ "]"
    else if needs_close_object p then
           match root_path p with
           | [] => ss p +++ "}"
           | _ :: _ => (ss p +++ "}") +++ "}"
           end
         else ss p +++ "}" in
  ss (parse_object_stop_close p) = closed /\
  (emit_json p = true ->
   if int_wrap (object_depth p - 1) =? 0 then
     calls (parse_object_stop env p h)
     = snd (convert_json_stream_to_flatbuffer env (with_ss closed p) h)
   else
     ss (final (parse_object_stop env p h)) = closed /\
     calls (parse_object_stop env p h) = h).
Proof.
  intros closed. split; [apply parse_object_stop_close_text|].
  intros Hemit. unfold closed.
  rewrite <- parse_object_stop_close_text.
  apply parse_object_stop_text. exact Hemit.
Qed.

End ClosingBrace.

(** C10, counterexample: [{"k":1,"j":2}] is captured under the empty
    message pattern against a table with the fields [id] and [val].  When
    the object ends, an object wrapper is pending, and so is an array
    wrapper: a closing bracket is written, and no closing brace. *)
Lemma parse_object_stop_array_wrapper_first :
  let env := agreeable (Some (schema_with_root id_val_table)) in
  let r := run (Some (schema_with_root id_val_table)) doc_k_j []
               accepting_sink ["err"] accepting_sink in
  let p := nth 7 (trace r) (final r) in
  let element k v :=
    "{" +++ quoted "id" +++ ":" +++ quoted k +++ ","
        +++ quoted "val" +++ ":" +++ v in
  (emit_json p = true /\ needs_close_object p = true /\
   needs_close_array p = true /\ root_path p = [] /\
   ss p = element "k" "1" +++ "[" +++ element "j" "2") /\
  ss (parse_object_stop_close p) = ss p +++ "]" /\
  sinks (calls (parse_object_stop env p (snd (engine loaded)))) = [false] /\
  calls r = calls (parse_object_stop env p (snd (engine loaded))) /\
  nth 3 (calls r) CallEmptyFunction
  = CallParseJson (element "k" "1" +++ "[" +++ element "j" "2" +++ "]").
Proof. vm_compute. repeat split; reflexivity. Qed.

(** The amended C10 at the closing braces of [{"a":{"b":1}}] under the
    message pattern [a]: the inner object has an object wrapper pending and
    is closed with two braces. *)
Lemma parse_object_stop_closing_witness :
  let env := agreeable loaded in
  let r := run loaded doc_a_b ["a"] accepting_sink ["err"] accepting_sink in
  let p := nth 6 (trace r) (final r) in
  needs_close_array p = false /\ needs_close_object p = true /\
  ss (final (parse_object_stop env p (snd (engine loaded))))
  = "{" +++ quoted "a" +++ ":{" +++ quoted "b" +++ ":1}}".
Proof.
  pose proof
    (parse_object_stop_closing (agreeable loaded)
       (nth 6 (trace (run loaded doc_a_b ["a"] accepting_sink
                          ["err"] accepting_sink))
            (final (run loaded doc_a_b ["a"] accepting_sink
                        ["err"] accepting_sink)))
       (snd (engine loaded))) as [_ H].
  specialize (H eq_refl). vm_compute in H. destruct H as [H _].
  split; [reflexivity|]. split; [reflexivity|].
  vm_compute. exact H.
Defined.

(** ** Schema loading *)

(** C6, on the code: the textual schema loads and the binary schema buffer
    is empty, so that loading it fails.  The engine is ready all the same,
    and the constructor leaves [schema] and [reflection_table] unassigned.
    At the key of [{"a":1}], [check_for_keyed_vector_table] reads through
    [reflection_table]: where its storage held no usable pointer, control is
    lost there; where the storage was zeroed, the subtree is encoded,
    verified, decoded and handed to the message sink, and [parse_stream]
    returns [true].  Neither is what the engine does when it is not ready,
    as it is after a textual schema that does not load: there every call to
    the collaborators is skipped, the dispatch counts as failed and
    [parse_stream] returns [false]. *)
Theorem binary_schema_failure_unhandled :
  let text := "{" +++ quoted "a" +++ ":1}" in
  let stream env e :=
    parse_stream env doc_a ["a"] accepting_sink ["err"] accepting_sink
                 (fst e) (snd e) in
  let garbage := agreeable loaded in
  let zeroed := agreeable_zeroed loaded in
  let binary_fails := FlatbuffersStreamingParser_ctor garbage
                        text_schema_example "" in
  let binary_fails_zeroed := FlatbuffersStreamingParser_ctor zeroed
                               text_schema_example "" in
  let text_fails := FlatbuffersStreamingParser_ctor garbage
                      "" binary_schema_example in
  (snd binary_fails = [CallParseSchema "table R {}"] /\
   flatbuffers_parser_ready (fst binary_fails) = true /\
   schema (fst binary_fails) = wild /\
   reflection_table (fst binary_fails) = wild /\
   calls (stream garbage binary_fails) = snd binary_fails /\
   returned (stream garbage binary_fails) = None)
  /\
  (snd binary_fails_zeroed = [CallParseSchema "table R {}"] /\
   flatbuffers_parser_ready (fst binary_fails_zeroed) = true /\
   schema (fst binary_fails_zeroed) = nullptr /\
   reflection_table (fst binary_fails_zeroed) = nullptr /\
   calls (stream zeroed binary_fails_zeroed)
   = snd binary_fails_zeroed
     ++ [CallSetRootType false; CallParseJson text;
         CallVerifyBuffer false text; CallMessageSink text] /\
   is_parse_error (final (stream zeroed binary_fails_zeroed)) = false /\
   returned (stream zeroed binary_fails_zeroed) = Some true)
  /\
  (snd text_fails = [CallVerifySchemaBuffer binary_schema_example] /\
   flatbuffers_parser_ready (fst text_fails) = false /\
   reflection_table (fst text_fails) = address value_table /\
   calls (stream garbage text_fails) = snd text_fails /\
   is_parse_error (final (stream garbage text_fails)) = true /\
   returned (stream garbage text_fails) = Some false).
Proof. vm_compute. repeat split; reflexivity. Qed.
